(** * A shallow embedding of the synthesis and effects engine of [src/main.rs]

    Modelling conventions used throughout the file:
    - an [f32] sample, time or parameter is a rational number [Q]; the
      transcendental functions of [f32] ([sin], [tanh], [sqrt], [powf]) are
      the fields of a [Libm] record every definition is parametrised by;
      [std::f32::consts::PI] is its exact [f32] value;
    - an [Instant] is a [Q] number of seconds; [t.elapsed()] read at instant
      [now] is [now - t], saturated at 0 as [Instant] subtraction is; all the
      clock reads of one call are taken at the same [now];
    - [Vec<T>] and [[T; 16]] are lists indexed as Rust does: an index out of
      range, a [usize] remainder by 0 and a [usize] subtraction below 0
      (a debug build) panic, an [unwrap] of [None] panics;
    - the per-sample path runs in the monad [M]: a computation either panics
      or returns a value together with the list of places where it divided
      an [f32] by zero (which in Rust yields inf or NaN and goes on);
    - [HashMap<u8, Voice>] is an association list with unique keys, iterated
      in list order. *)

From Stdlib Require Import Arith QArith Qround Qabs Qpower NArith List Lia Lqa Bool.
Import ListNotations.

Open Scope Q_scope.

(** ** Panics, divisions by zero and the monad of the per-sample path *)

Inductive panic :=
| IndexOutOfBounds
| RemByZero
| SubOverflow
| UnwrapNone.

(** The [f32] divisions of the per-sample path whose divisor is not a
    positive constant, one constructor per place in the source. *)
Inductive div_site :=
| PhaseStep        (* Voice::get_sample: phase_step *)
| HarmonicStep     (* Voice::get_sample: harmonic_phase_step *)
| AdditiveNorm     (* Voice::get_sample: sum / sqrt(num_harmonics) *)
| VoiceMean        (* Synth::get_next_sample: sum / voices.len() *)
| CutoffNorm       (* Filter: 2 pi cutoff / sample_rate *)
| FilterAlpha      (* Filter: normalized_cutoff / (1 + normalized_cutoff) *)
| TremoloStep      (* Tremolo: rate / sample_rate *)
| ChorusStep       (* Chorus: rates[i] / sample_rate *)
| ChorusMean       (* Chorus: output / buffers.len() *)
| CombMean         (* Reverb: comb_output / comb_filters.len() *)
| RingModStep.     (* RingMod: frequency / sample_rate *)

Definition M (A : Type) : Type := sum panic (A * list div_site).

Definition ret {A} (x : A) : M A := inr (x, []).

Definition bind {A B} (m : M A) (f : A -> M B) : M B :=
  match m with
  | inl p => inl p
  | inr (a, l1) =>
      match f a with
      | inl p => inl p
      | inr (b, l2) => inr (b, l1 ++ l2)
      end
  end.

Definition fail {A} (p : panic) : M A := inl p.

Notation "x <- c1 ;; c2" := (bind c1 (fun x => c2))
  (at level 61, c1 at next level, right associativity).
Notation "' p <- c1 ;; c2" := (bind c1 (fun x => match x with p => c2 end))
  (at level 61, p pattern, c1 at next level, right associativity).

(** [a / b] on [f32]: the quotient, and the site logged when [b] is zero. *)
Definition fdiv (s : div_site) (a b : Q) : M Q :=
  inr (a / b, if Qeq_bool b 0 then [s] else []).

(** [v[i]] *)
Definition get {A} (l : list A) (i : nat) : M A :=
  match nth_error l i with
  | Some x => ret x
  | None => fail IndexOutOfBounds
  end.

(** [v[i] = x] *)
Fixpoint set_nth {A} (l : list A) (i : nat) (x : A) : option (list A) :=
  match l, i with
  | [], _ => None
  | _ :: t, O => Some (x :: t)
  | y :: t, S j => option_map (cons y) (set_nth t j x)
  end.

Definition set {A} (l : list A) (i : nat) (x : A) : M (list A) :=
  match set_nth l i x with
  | Some l' => ret l'
  | None => fail IndexOutOfBounds
  end.

(** [a % b] and [a - b] on [usize] *)
Definition rem_usize (a b : nat) : M nat :=
  if Nat.eqb b 0 then fail RemByZero else ret (Nat.modulo a b).

Definition sub_usize (a b : nat) : M nat :=
  if Nat.ltb a b then fail SubOverflow else ret (a - b)%nat.

(** [for i in 0..n { body }] threading the mutated state. *)
Fixpoint mfor {I S} (idx : list I) (body : I -> S -> M S) (s : S) : M S :=
  match idx with
  | [] => ret s
  | i :: idx' => s' <- body i s ;; mfor idx' body s'
  end.

(** ** f32 helpers *)

Definition qlt (a b : Q) : bool := negb (Qle_bool b a).
Definition qle (a b : Q) : bool := Qle_bool a b.

(** [f32::trunc] and the [%] of [f32] (C [fmod]: the sign of the dividend). *)
Definition qtrunc (x : Q) : Z := if Qle_bool 0 x then Qfloor x else Qceiling x.
Definition fmod (x y : Q) : Q := x - inject_Z (qtrunc (x / y)) * y.

(** [x as usize]: truncation, negative values saturate to 0. *)
Definition f32_as_usize (x : Q) : nat := Z.to_nat (qtrunc x).

(** [std::f32::consts::PI], the [f32] nearest to pi. *)
Definition PI : Q := 13176795 # 4194304.

Record Libm := {
  sin : Q -> Q;
  tanh : Q -> Q;
  sqrt : Q -> Q;
  powf : Q -> Q -> Q
}.

(** [Instant::elapsed] read at [now]. *)
Definition elapsed (t now : Q) : Q := if qlt t now then now - t else 0.

(** ** Effects (lines 9-334) *)

Module DelayParameters.
Record t := {
  buffer : list Q;
  position : nat;
  delay_time : Q;
  feedback : Q;
  mix : Q
}.
End DelayParameters.

Module FilterParameters.
Record t := {
  cutoff : Q;
  resonance : Q;
  mix : Q;
  prev_input : Q;
  prev_output : Q
}.
End FilterParameters.

Module TremoloParameters.
Record t := {
  rate : Q;
  depth : Q;
  mix : Q;
  phase : Q
}.
End TremoloParameters.

Module ChorusParameters.
Record t := {
  buffers : list (list Q);
  positions : list nat;
  rates : list Q;
  depths : list Q;
  phases : list Q;
  mix : Q
}.
End ChorusParameters.

Module ReverbParameters.
Record t := {
  comb_filters : list (list Q);
  comb_positions : list nat;
  allpass_filters : list (list Q);
  allpass_positions : list nat;
  feedback : Q;
  mix : Q
}.
End ReverbParameters.

Module RingModParameters.
Record t := {
  frequency : Q;
  phase : Q;
  mix : Q
}.
End RingModParameters.

Module Effect.

Inductive t :=
| Delay (params : DelayParameters.t)
| Distortion (drive mix : Q)
| Filter (params : FilterParameters.t)
| Tremolo (params : TremoloParameters.t)
| Chorus (params : ChorusParameters.t)
| Reverb (params : ReverbParameters.t)
| RingMod (params : RingModParameters.t).

(** [buffer.fill(0.0)] *)
Definition zeros (l : list Q) : list Q := map (fun _ => 0) l.

Section Process.
Context (libm : Libm).

(** The [Chorus] loop body, iteration [i]; the state is
    [(output, buffers, positions, phases)]. *)
Definition chorus_step (sample sample_rate : Q) (p : ChorusParameters.t) (i : nat)
    (st : Q * list (list Q) * list nat * list Q)
    : M (Q * list (list Q) * list nat * list Q) :=
  let '(output, buffers, positions, phases) := st in
  ph <- get phases i ;;
  r <- get (ChorusParameters.rates p) i ;;
  step <- fdiv ChorusStep r sample_rate ;;
  phases <- set phases i (fmod (ph + step) 1) ;;
  ph' <- get phases i ;;
  d <- get (ChorusParameters.depths p) i ;;
  let mod_delay := (1 + sin libm (ph' * 2 * PI) * d) * 0.5 in
  buf <- get buffers i ;;
  len1 <- sub_usize (length buf) 1 ;;
  let delay_samples := f32_as_usize (mod_delay * inject_Z (Z.of_nat len1)) in
  pos <- get positions i ;;
  back <- sub_usize (pos + length buf) delay_samples ;;
  read_pos <- rem_usize back (length buf) ;;
  x <- get buf read_pos ;;
  let output := output + x in
  buf <- set buf pos sample ;;
  buffers <- set buffers i buf ;;
  pos' <- rem_usize (pos + 1) (length buf) ;;
  positions <- set positions i pos' ;;
  ret (output, buffers, positions, phases).

(** The [Reverb] comb loop body; the state is
    [(comb_output, comb_filters, comb_positions)]. *)
Definition comb_step (sample feedback : Q) (i : nat)
    (st : Q * list (list Q) * list nat) : M (Q * list (list Q) * list nat) :=
  let '(comb_output, combs, cpos) := st in
  buf <- get combs i ;;
  pos <- get cpos i ;;
  delayed <- get buf pos ;;
  let comb_output := comb_output + delayed in
  buf <- set buf pos (sample + delayed * feedback) ;;
  combs <- set combs i buf ;;
  pos' <- rem_usize (pos + 1) (length buf) ;;
  cpos <- set cpos i pos' ;;
  ret (comb_output, combs, cpos).

(** The [Reverb] allpass loop body; the state is
    [(allpass_output, allpass_filters, allpass_positions)]. *)
Definition allpass_step (i : nat)
    (st : Q * list (list Q) * list nat) : M (Q * list (list Q) * list nat) :=
  let '(allpass_output, aps, apos) := st in
  buf <- get aps i ;;
  pos <- get apos i ;;
  delayed <- get buf pos ;;
  let input := allpass_output in
  let allpass_output := delayed - input in
  buf <- set buf pos (input + delayed * 0.5) ;;
  aps <- set aps i buf ;;
  pos' <- rem_usize (pos + 1) (length buf) ;;
  apos <- set apos i pos' ;;
  ret (allpass_output, aps, apos).

(** [Effect::process] (lines 74-158). *)
Definition process (e : t) (sample sample_rate : Q) : M (Q * t) :=
  match e with
  | Delay p =>
      delayed <- get (DelayParameters.buffer p) (DelayParameters.position p) ;;
      buf <- set (DelayParameters.buffer p) (DelayParameters.position p)
               (sample + delayed * DelayParameters.feedback p) ;;
      pos <- rem_usize (DelayParameters.position p + 1) (length buf) ;;
      ret (sample * (1 - DelayParameters.mix p) + delayed * DelayParameters.mix p,
           Delay {| DelayParameters.buffer := buf;
                    DelayParameters.position := pos;
                    DelayParameters.delay_time := DelayParameters.delay_time p;
                    DelayParameters.feedback := DelayParameters.feedback p;
                    DelayParameters.mix := DelayParameters.mix p |})
  | Distortion drive mix =>
      let processed := tanh libm (sample * drive) in
      ret (sample * (1 - mix) + processed * mix, Distortion drive mix)
  | Filter p =>
      normalized_cutoff <- fdiv CutoffNorm (2 * PI * FilterParameters.cutoff p) sample_rate ;;
      alpha <- fdiv FilterAlpha normalized_cutoff (1 + normalized_cutoff) ;;
      let processed := FilterParameters.prev_output p
                       + alpha * (sample - FilterParameters.prev_output p) in
      ret (sample * (1 - FilterParameters.mix p) + processed * FilterParameters.mix p,
           Filter {| FilterParameters.cutoff := FilterParameters.cutoff p;
                     FilterParameters.resonance := FilterParameters.resonance p;
                     FilterParameters.mix := FilterParameters.mix p;
                     FilterParameters.prev_input := sample;
                     FilterParameters.prev_output := processed |})
  | Tremolo p =>
      let modulation :=
        (1 + sin libm (TremoloParameters.phase p * 2 * PI) * TremoloParameters.depth p) * 0.5 in
      step <- fdiv TremoloStep (TremoloParameters.rate p) sample_rate ;;
      let processed := sample * modulation in
      ret (sample * (1 - TremoloParameters.mix p) + processed * TremoloParameters.mix p,
           Tremolo {| TremoloParameters.rate := TremoloParameters.rate p;
                      TremoloParameters.depth := TremoloParameters.depth p;
                      TremoloParameters.mix := TremoloParameters.mix p;
                      TremoloParameters.phase := fmod (TremoloParameters.phase p + step) 1 |})
  | Chorus p =>
      let n := length (ChorusParameters.buffers p) in
      '(output, buffers, positions, phases) <-
        mfor (seq 0 n) (chorus_step sample sample_rate p)
             (0, ChorusParameters.buffers p, ChorusParameters.positions p,
              ChorusParameters.phases p) ;;
      output <- fdiv ChorusMean output (inject_Z (Z.of_nat n)) ;;
      ret (sample * (1 - ChorusParameters.mix p) + output * ChorusParameters.mix p,
           Chorus {| ChorusParameters.buffers := buffers;
                     ChorusParameters.positions := positions;
                     ChorusParameters.rates := ChorusParameters.rates p;
                     ChorusParameters.depths := ChorusParameters.depths p;
                     ChorusParameters.phases := phases;
                     ChorusParameters.mix := ChorusParameters.mix p |})
  | Reverb p =>
      let n := length (ReverbParameters.comb_filters p) in
      '(comb_output, combs, cpos) <-
        mfor (seq 0 n) (comb_step sample (ReverbParameters.feedback p))
             (0, ReverbParameters.comb_filters p, ReverbParameters.comb_positions p) ;;
      comb_output <- fdiv CombMean comb_output (inject_Z (Z.of_nat n)) ;;
      '(allpass_output, aps, apos) <-
        mfor (seq 0 (length (ReverbParameters.allpass_filters p))) allpass_step
             (comb_output, ReverbParameters.allpass_filters p,
              ReverbParameters.allpass_positions p) ;;
      ret (sample * (1 - ReverbParameters.mix p) + allpass_output * ReverbParameters.mix p,
           Reverb {| ReverbParameters.comb_filters := combs;
                     ReverbParameters.comb_positions := cpos;
                     ReverbParameters.allpass_filters := aps;
                     ReverbParameters.allpass_positions := apos;
                     ReverbParameters.feedback := ReverbParameters.feedback p;
                     ReverbParameters.mix := ReverbParameters.mix p |})
  | RingMod p =>
      let modulator := sin libm (RingModParameters.phase p * 2 * PI) in
      step <- fdiv RingModStep (RingModParameters.frequency p) sample_rate ;;
      let processed := sample * modulator in
      ret (sample * (1 - RingModParameters.mix p) + processed * RingModParameters.mix p,
           RingMod {| RingModParameters.frequency := RingModParameters.frequency p;
                      RingModParameters.phase := fmod (RingModParameters.phase p + step) 1;
                      RingModParameters.mix := RingModParameters.mix p |})
  end.

End Process.

(** [Effect::reset] (lines 160-195). *)
Definition reset (e : t) : t :=
  match e with
  | Delay p =>
      Delay {| DelayParameters.buffer := zeros (DelayParameters.buffer p);
               DelayParameters.position := 0;
               DelayParameters.delay_time := DelayParameters.delay_time p;
               DelayParameters.feedback := DelayParameters.feedback p;
               DelayParameters.mix := DelayParameters.mix p |}
  | Distortion drive mix => Distortion drive mix
  | Filter p =>
      Filter {| FilterParameters.cutoff := FilterParameters.cutoff p;
                FilterParameters.resonance := FilterParameters.resonance p;
                FilterParameters.mix := FilterParameters.mix p;
                FilterParameters.prev_input := 0;
                FilterParameters.prev_output := 0 |}
  | Tremolo p =>
      Tremolo {| TremoloParameters.rate := TremoloParameters.rate p;
                 TremoloParameters.depth := TremoloParameters.depth p;
                 TremoloParameters.mix := TremoloParameters.mix p;
                 TremoloParameters.phase := 0 |}
  | Chorus p =>
      Chorus {| ChorusParameters.buffers := map zeros (ChorusParameters.buffers p);
                ChorusParameters.positions := map (fun _ => 0%nat) (ChorusParameters.positions p);
                ChorusParameters.rates := ChorusParameters.rates p;
                ChorusParameters.depths := ChorusParameters.depths p;
                ChorusParameters.phases := zeros (ChorusParameters.phases p);
                ChorusParameters.mix := ChorusParameters.mix p |}
  | Reverb p =>
      Reverb {| ReverbParameters.comb_filters := map zeros (ReverbParameters.comb_filters p);
                ReverbParameters.comb_positions :=
                  map (fun _ => 0%nat) (ReverbParameters.comb_positions p);
                ReverbParameters.allpass_filters := map zeros (ReverbParameters.allpass_filters p);
                ReverbParameters.allpass_positions :=
                  map (fun _ => 0%nat) (ReverbParameters.allpass_positions p);
                ReverbParameters.feedback := ReverbParameters.feedback p;
                ReverbParameters.mix := ReverbParameters.mix p |}
  | RingMod p =>
      RingMod {| RingModParameters.frequency := RingModParameters.frequency p;
                 RingModParameters.phase := 0;
                 RingModParameters.mix := RingModParameters.mix p |}
  end.

(** [Effect::new_delay] (lines 200-209). *)
Definition new_delay (sample_rate delay_time feedback mix : Q) : t :=
  let buffer_size := f32_as_usize (sample_rate * delay_time) in
  Delay {| DelayParameters.buffer := repeat 0 (Nat.max buffer_size 1);
           DelayParameters.position := 0;
           DelayParameters.delay_time := delay_time;
           DelayParameters.feedback := feedback;
           DelayParameters.mix := mix |}.

(** [Effect::new_filter] (lines 215-223). *)
Definition new_filter (cutoff resonance mix : Q) : t :=
  Filter {| FilterParameters.cutoff := cutoff;
            FilterParameters.resonance := resonance;
            FilterParameters.mix := mix;
            FilterParameters.prev_input := 0;
            FilterParameters.prev_output := 0 |}.

(** [Effect::new_reverb] (lines 261-296). *)
Definition new_reverb (sample_rate room_size mix : Q) : t :=
  let comb_delays := [0.0297 * room_size; 0.0371 * room_size;
                      0.0411 * room_size; 0.0437 * room_size] in
  let allpass_delays := [0.0050; 0.0017] in
  Reverb {| ReverbParameters.comb_filters :=
              map (fun delay => repeat 0 (f32_as_usize (sample_rate * delay))) comb_delays;
            ReverbParameters.comb_positions := map (fun _ => 0%nat) comb_delays;
            ReverbParameters.allpass_filters :=
              map (fun delay => repeat 0 (f32_as_usize (sample_rate * delay))) allpass_delays;
            ReverbParameters.allpass_positions := map (fun _ => 0%nat) allpass_delays;
            ReverbParameters.feedback := 0.84;
            ReverbParameters.mix := mix |}.

(** [Effect::new_distortion] (lines 211-213). *)
Definition new_distortion (drive mix : Q) : t := Distortion drive mix.

(** [Effect::new_tremolo] (lines 225-232). *)
Definition new_tremolo (rate depth mix : Q) : t :=
  Tremolo {| TremoloParameters.rate := rate; TremoloParameters.depth := depth;
             TremoloParameters.mix := mix; TremoloParameters.phase := 0 |}.

(** [Effect::new_chorus] (lines 234-259): [voices] delay lines of
    [(sample_rate * 0.030) as usize] samples. *)
Definition new_chorus (sample_rate : Q) (voices : nat) (mix : Q) : t :=
  let max_delay_samples := f32_as_usize (sample_rate * 0.030) in
  Chorus {| ChorusParameters.buffers := repeat (repeat 0 max_delay_samples) voices;
            ChorusParameters.positions := repeat 0%nat voices;
            ChorusParameters.rates :=
              map (fun i => 0.5 + inject_Z (Z.of_nat i) * 0.2) (seq 0 voices);
            ChorusParameters.depths := repeat 0.7 voices;
            ChorusParameters.phases := repeat 0 voices;
            ChorusParameters.mix := mix |}.

(** [Effect::new_ring_mod] (lines 298-304). *)
Definition new_ring_mod (frequency mix : Q) : t :=
  RingMod {| RingModParameters.frequency := frequency; RingModParameters.phase := 0;
             RingModParameters.mix := mix |}.


End Effect.

(** ** [EffectStack] (lines 308-334) *)
Module EffectStack.

Record t := { effects : list Effect.t }.

Definition new : t := {| effects := [] |}.

Definition add_effect (s : t) (e : Effect.t) : t := {| effects := effects s ++ [e] |}.

Section Process.
Context (libm : Libm).

(** The loop of [EffectStack::process]: each effect in order, [processed]
    threaded from one to the next. *)
Fixpoint process_effects (effs : list Effect.t) (processed sample_rate : Q)
    : M (Q * list Effect.t) :=
  match effs with
  | [] => ret (processed, [])
  | e :: es =>
      '(processed, e) <- Effect.process libm e processed sample_rate ;;
      '(processed, es) <- process_effects es processed sample_rate ;;
      ret (processed, e :: es)
  end.

Definition process (s : t) (sample sample_rate : Q) : M (Q * t) :=
  '(processed, effs) <- process_effects (effects s) sample sample_rate ;;
  ret (processed, {| effects := effs |}).

End Process.

Definition reset (s : t) : t := {| effects := map Effect.reset (effects s) |}.

End EffectStack.

(** ** Envelopes (lines 380-503) *)

Module Envelope.

Record t := {
  attack : Q;
  decay : Q;
  sustain : Q;
  release : Q;
  start_time : option Q;
  release_time : option Q;
  is_released : bool
}.

Definition new (attack decay sustain release : Q) : t :=
  {| attack := attack; decay := decay; sustain := sustain; release := release;
     start_time := None; release_time := None; is_released := false |}.

(** [envelope.start_time = Some(t)] *)
Definition set_start_time (e : t) (now : Q) : t :=
  {| attack := attack e; decay := decay e; sustain := sustain e; release := release e;
     start_time := Some now; release_time := release_time e;
     is_released := is_released e |}.

(** [envelope.is_released = true; envelope.release_time = Some(now)] *)
Definition set_released (e : t) (now : Q) : t :=
  {| attack := attack e; decay := decay e; sustain := sustain e; release := release e;
     start_time := start_time e; release_time := Some now; is_released := true |}.

(** [Envelope::get_amplitude] (lines 477-502), clock read at [now]. *)
Definition get_amplitude (e : t) (now : Q) : Q :=
  match start_time e with
  | Some st =>
      let el := elapsed st now in
      let released :=
        if is_released e then
          match release_time e with
          | Some rt =>
              let release_elapsed := elapsed rt now in
              Some (if qle (release e) release_elapsed then 0
                    else sustain e * (1 - release_elapsed / release e))
          | None => None
          end
        else None in
      match released with
      | Some a => a
      | None =>
          if qlt el (attack e) then el / attack e
          else if qlt el (attack e + decay e) then
            1 - (1 - sustain e) * (el - attack e) / decay e
          else sustain e
      end
  | None => 0
  end.

End Envelope.

Module FrequencyEnvelope.

Record t := {
  attack : Q;
  decay : Q;
  release : Q;
  start_time : option Q;
  release_time : option Q;
  is_released : bool;
  start_freq : Q;
  peak_freq : Q;
  sustain_freq : Q
}.

Definition new (attack decay release start_freq peak_freq sustain_freq : Q) : t :=
  {| attack := attack; decay := decay; release := release;
     start_time := None; release_time := None; is_released := false;
     start_freq := start_freq; peak_freq := peak_freq; sustain_freq := sustain_freq |}.

Definition set_start_time (e : t) (now : Q) : t :=
  {| attack := attack e; decay := decay e; release := release e;
     start_time := Some now; release_time := release_time e;
     is_released := is_released e; start_freq := start_freq e;
     peak_freq := peak_freq e; sustain_freq := sustain_freq e |}.

Definition set_released (e : t) (now : Q) : t :=
  {| attack := attack e; decay := decay e; release := release e;
     start_time := start_time e; release_time := Some now; is_released := true;
     start_freq := start_freq e; peak_freq := peak_freq e;
     sustain_freq := sustain_freq e |}.

(** [FrequencyEnvelope::get_frequency_multiplier] (lines 424-461). *)
Definition get_frequency_multiplier (e : t) (now : Q) : Q :=
  match start_time e with
  | Some st =>
      let el := elapsed st now in
      let released :=
        if is_released e then
          match release_time e with
          | Some rt =>
              let release_elapsed := elapsed rt now in
              Some (if qle (release e) release_elapsed then 1
                    else let sustain_mult := sustain_freq e / start_freq e in
                         sustain_mult * (1 - release_elapsed / release e)
                         + 1 * (release_elapsed / release e))
          | None => None
          end
        else None in
      match released with
      | Some m => m
      | None =>
          if qlt el (attack e) then
            let progress := el / attack e in
            let start_mult := 1 in
            let peak_mult := peak_freq e / start_freq e in
            start_mult + (peak_mult - start_mult) * progress
          else if qlt el (attack e + decay e) then
            let progress := (el - attack e) / decay e in
            let peak_mult := peak_freq e / start_freq e in
            let sustain_mult := sustain_freq e / start_freq e in
            peak_mult + (sustain_mult - peak_mult) * progress
          else sustain_freq e / start_freq e
      end
  | None => 1
  end.

End FrequencyEnvelope.

(** ** Voices (lines 337-348, 370-378, 505-558) *)

Inductive Waveform :=
| Sine
| Square
| Sawtooth
| Triangle
| Noise
| Additive (num_harmonics : nat) (harmonic_weights : list Q).

Module Voice.

Record t := {
  frequency : Q;
  waveform : Waveform;
  envelope : Envelope.t;
  frequency_envelope : FrequencyEnvelope.t;
  phase : Q;
  pitch_bend : Q;
  harmonic_phases : list Q
}.

Section GetSample.
Context (libm : Libm).

(** The body of the additive loop, for harmonic [h] of weight
    [harmonic_weight]; the state is [(sum, harmonic_phases)]. *)
Definition harmonic_step (current_frequency sample_rate : Q)
    (hw : nat * Q) (st : Q * list Q) : M (Q * list Q) :=
  let '(h, harmonic_weight) := hw in
  let '(sum, hps) := st in
  let harmonic_freq := current_frequency * inject_Z (Z.of_nat (h + 1)) in
  if qlt harmonic_freq (sample_rate / 2) then
    harmonic_phase_step <- fdiv HarmonicStep (harmonic_freq * 2 * PI) sample_rate ;;
    hp <- get hps h ;;
    hps <- set hps h (fmod (hp + harmonic_phase_step) (2 * PI)) ;;
    hp <- get hps h ;;
    ret (sum + harmonic_weight * sin libm hp, hps)
  else ret (sum, hps).

(** [Voice::get_sample] (lines 506-557): clock read at [now]; [rnd] is the
    value of [rand::random::<f32>()] drawn by a [Noise] voice. *)
Definition get_sample (v : t) (sample_rate now rnd : Q) : M (Q * t) :=
  let base_frequency := frequency v * pitch_bend v in
  let freq_multiplier :=
    FrequencyEnvelope.get_frequency_multiplier (frequency_envelope v) now in
  let current_frequency := base_frequency * freq_multiplier in
  phase_step <- fdiv PhaseStep (current_frequency * 2 * PI) sample_rate ;;
  let amplitude := Envelope.get_amplitude (envelope v) now in
  '(sample, hps) <-
    match waveform v with
    | Sine => ret (sin libm (phase v), harmonic_phases v)
    | Square => ret (if qle 0 (sin libm (phase v)) then 1 else -1, harmonic_phases v)
    | Sawtooth => ret (fmod (phase v) (2 * PI) / (2 * PI) * 2 - 1, harmonic_phases v)
    | Triangle =>
        let normalized_phase := fmod (phase v) (2 * PI) / (2 * PI) in
        ret (if qlt normalized_phase 0.5 then normalized_phase * 4 - 1
             else 3 - normalized_phase * 4, harmonic_phases v)
    | Noise => ret (rnd * 2 - 1, harmonic_phases v)
    | Additive num_harmonics harmonic_weights =>
        '(sum, hps) <-
          mfor (firstn (Nat.min num_harmonics 16)
                  (combine (seq 0 (length harmonic_weights)) harmonic_weights))
               (harmonic_step current_frequency sample_rate)
               (0, harmonic_phases v) ;;
        s <- fdiv AdditiveNorm sum (sqrt libm (inject_Z (Z.of_nat num_harmonics))) ;;
        ret (s, hps)
    end ;;
  ret (sample * amplitude,
       {| frequency := frequency v; waveform := waveform v; envelope := envelope v;
          frequency_envelope := frequency_envelope v;
          phase := fmod (phase v + phase_step) (2 * PI);
          pitch_bend := pitch_bend v; harmonic_phases := hps |}).

End GetSample.

End Voice.

(** ** [HashMap<u8, Voice>] as an association list with unique keys *)

Definition note := N.

Fixpoint hm_get {V} (m : list (note * V)) (k : note) : option V :=
  match m with
  | [] => None
  | (k', v) :: m' => if N.eqb k k' then Some v else hm_get m' k
  end.

(** [HashMap::insert]: an existing key keeps its place, a new one is added. *)
Fixpoint hm_replace {V} (m : list (note * V)) (k : note) (v : V) : option (list (note * V)) :=
  match m with
  | [] => None
  | (k', v') :: m' =>
      if N.eqb k k' then Some ((k, v) :: m')
      else option_map (cons (k', v')) (hm_replace m' k v)
  end.

Definition hm_insert {V} (m : list (note * V)) (k : note) (v : V) : list (note * V) :=
  match hm_replace m k v with
  | Some m' => m'
  | None => m ++ [(k, v)]
  end.

(** ** [Synth] (lines 350-368, 560-648) *)

Module Synth.

Record t := {
  voices : list (note * Voice.t);
  sample_rate : Q;
  pitch_bend : Q;
  waveform : Waveform;
  attack : Q;
  decay : Q;
  sustain : Q;
  release : Q;
  freq_attack : Q;
  freq_decay : Q;
  freq_release : Q;
  freq_start_mult : Q;
  freq_peak_mult : Q;
  freq_sustain_mult : Q;
  num_harmonics : nat;
  harmonic_weights : list Q;
  effects : EffectStack.t
}.

Definition set_voices_effects (s : t) (vs : list (note * Voice.t)) (fx : EffectStack.t) : t :=
  {| voices := vs; sample_rate := sample_rate s; pitch_bend := pitch_bend s;
     waveform := waveform s; attack := attack s; decay := decay s;
     sustain := sustain s; release := release s; freq_attack := freq_attack s;
     freq_decay := freq_decay s; freq_release := freq_release s;
     freq_start_mult := freq_start_mult s; freq_peak_mult := freq_peak_mult s;
     freq_sustain_mult := freq_sustain_mult s; num_harmonics := num_harmonics s;
     harmonic_weights := harmonic_weights s; effects := fx |}.

Definition set_voices (s : t) (vs : list (note * Voice.t)) : t :=
  set_voices_effects s vs (effects s).

(** [Synth::new] (lines 561-584). *)
Definition new (sample_rate : Q) : t :=
  {| voices := []; sample_rate := sample_rate; pitch_bend := 1; waveform := Sine;
     attack := 0.1; decay := 0.1; sustain := 0.7; release := 0.3;
     freq_attack := 0.1; freq_decay := 0.2; freq_release := 0.3;
     freq_start_mult := 1; freq_peak_mult := 2; freq_sustain_mult := 1.5;
     harmonic_weights := [1; 0.5; 0.33; 0.25; 0.2; 0.17; 0.14; 0.13; 0.11; 0.1;
                          0.09; 0.08; 0.07; 0.06; 0.05; 0.04];
     num_harmonics := 8; effects := EffectStack.new |}.

Section Ops.
Context (libm : Libm).

(** The voice built by [Synth::note_on] (lines 590-615), both clocks
    started at [now]. *)
Definition fresh_voice (s : t) (n : note) (now : Q) : Voice.t :=
  let frequency := 440 * powf libm 2 (inject_Z (Z.of_N n) / 12) in
  let waveform :=
    match waveform s with
    | Additive _ _ => Additive (num_harmonics s) (harmonic_weights s)
    | other => other
    end in
  {| Voice.frequency := frequency;
     Voice.waveform := waveform;
     Voice.envelope :=
       Envelope.set_start_time (Envelope.new (attack s) (decay s) (sustain s) (release s)) now;
     Voice.frequency_envelope :=
       FrequencyEnvelope.set_start_time
         (FrequencyEnvelope.new (freq_attack s) (freq_decay s) (freq_release s)
            frequency (frequency * freq_peak_mult s) (frequency * freq_sustain_mult s)) now;
     Voice.phase := 0;
     Voice.pitch_bend := pitch_bend s;
     Voice.harmonic_phases := repeat 0 16 |}.

(** [Synth::note_on] (lines 586-618). *)
Definition note_on (s : t) (n : note) (now : Q) : t :=
  match hm_get (voices s) n with
  | Some v => if negb (Envelope.is_released (Voice.envelope v)) then s
              else set_voices s (hm_insert (voices s) n (fresh_voice s n now))
  | None => set_voices s (hm_insert (voices s) n (fresh_voice s n now))
  end.

(** The voice after [note_off] (lines 622-625). *)
Definition release_voice (v : Voice.t) (now : Q) : Voice.t :=
  {| Voice.frequency := Voice.frequency v; Voice.waveform := Voice.waveform v;
     Voice.envelope := Envelope.set_released (Voice.envelope v) now;
     Voice.frequency_envelope := FrequencyEnvelope.set_released (Voice.frequency_envelope v) now;
     Voice.phase := Voice.phase v; Voice.pitch_bend := Voice.pitch_bend v;
     Voice.harmonic_phases := Voice.harmonic_phases v |}.

(** [Synth::note_off] (lines 620-627). *)
Definition note_off (s : t) (n : note) (now : Q) : t :=
  match hm_get (voices s) n with
  | Some v => set_voices s (hm_insert (voices s) n (release_voice v now))
  | None => s
  end.

(** The predicate of the [retain] of [get_next_sample] (lines 631-633). *)
Definition keep_voice (v : Voice.t) (now : Q) : sum panic bool :=
  let e := Voice.envelope v in
  if negb (Envelope.is_released e) then inr true
  else match Envelope.release_time e with
       | Some rt => inr (qlt (elapsed rt now) (Envelope.release e))
       | None => inl UnwrapNone
       end.

(** [voices.retain(...)] *)
Fixpoint retain (vs : list (note * Voice.t)) (now : Q) : sum panic (list (note * Voice.t)) :=
  match vs with
  | [] => inr []
  | (k, v) :: vs' =>
      match keep_voice v now with
      | inl p => inl p
      | inr b =>
          match retain vs' now with
          | inl p => inl p
          | inr r => inr (if b then (k, v) :: r else r)
          end
      end
  end.

(** [voices.values_mut().map(|voice| voice.get_sample(sample_rate)).sum()]:
    the [i]-th voice draws the random value [rng i]. *)
Fixpoint sample_voices (vs : list (note * Voice.t)) (sample_rate now : Q)
    (rng : nat -> Q) (i : nat) : M (Q * list (note * Voice.t)) :=
  match vs with
  | [] => ret (0, [])
  | (k, v) :: vs' =>
      '(x, v) <- Voice.get_sample libm v sample_rate now (rng i) ;;
      '(sum, vs') <- sample_voices vs' sample_rate now rng (S i) ;;
      ret (x + sum, (k, v) :: vs')
  end.

(** [Synth::get_next_sample] (lines 629-647). *)
Definition get_next_sample (s : t) (now : Q) (rng : nat -> Q) : M (Q * t) :=
  match retain (voices s) now with
  | inl p => fail p
  | inr vs =>
      '(r, vs) <-
        (match vs with
         | [] => ret (0, vs)
         | _ :: _ =>
             '(sum, vs) <- sample_voices vs (sample_rate s) now rng 0 ;;
             r <- fdiv VoiceMean sum (inject_Z (Z.of_nat (length vs))) ;;
             ret (r, vs)
         end) ;;
      '(out, fx) <- EffectStack.process libm (effects s) r (sample_rate s) ;;
      ret (out, set_voices_effects s vs fx)
  end.

End Ops.

End Synth.

(** ** The control panel and the audio callback (lines 650-994) *)
Module SynthApp.

(** The buffer resize [update] runs on every [Delay] of the stack, after its
    sliders, on every frame (lines 829-833). *)
Definition resize_delay (sample_rate : Q) (p : DelayParameters.t) : DelayParameters.t :=
  let new_size := f32_as_usize (sample_rate * DelayParameters.delay_time p) in
  if negb (Nat.eqb (length (DelayParameters.buffer p)) new_size) then
    {| DelayParameters.buffer := repeat 0 (Nat.max new_size 1);
       DelayParameters.position := 0;
       DelayParameters.delay_time := DelayParameters.delay_time p;
       DelayParameters.feedback := DelayParameters.feedback p;
       DelayParameters.mix := DelayParameters.mix p |}
  else p.

(** The effect loop of [update] (lines 818-876) on one effect, its sliders
    left where they are: only the [Delay] arm changes the effect. *)
Definition panel_effect (sample_rate : Q) (e : Effect.t) : Effect.t :=
  match e with
  | Effect.Delay p => Effect.Delay (resize_delay sample_rate p)
  | e => e
  end.

Definition panel_effects (sample_rate : Q) (fx : EffectStack.t) : EffectStack.t :=
  {| EffectStack.effects := map (panel_effect sample_rate) (EffectStack.effects fx) |}.

(** The effect buttons of [update] (lines 769-816). *)
Inductive button :=
| AddDelay | AddDistortion | AddFilter | AddTremolo | AddChorus | AddReverb
| AddRingMod | ResetEffects.

Definition press (s : Synth.t) (b : button) : Synth.t :=
  let sr := Synth.sample_rate s in
  let add e := Synth.set_voices_effects s (Synth.voices s)
                 (EffectStack.add_effect (Synth.effects s) e) in
  match b with
  | AddDelay => add (Effect.new_delay sr 0.3 0.4 0.5)
  | AddDistortion => add (Effect.new_distortion 2 0.5)
  | AddFilter => add (Effect.new_filter 1000 0.7 0.5)
  | AddTremolo => add (Effect.new_tremolo 5 0.5 0.5)
  | AddChorus => add (Effect.new_chorus sr 3 0.5)
  | AddReverb => add (Effect.new_reverb sr 1 0.5)
  | AddRingMod => add (Effect.new_ring_mod 440 0.5)
  | ResetEffects => Synth.set_voices_effects s (Synth.voices s) EffectStack.new
  end.

(** One frame of the effect panel: the buttons clicked, one [press] each
    in order, then the per-effect loop. *)
Definition effect_frame (s : Synth.t) (clicked : list button) : Synth.t :=
  let s := fold_left press clicked s in
  Synth.set_voices_effects s (Synth.voices s)
    (panel_effects (Synth.sample_rate s) (Synth.effects s)).

Section Stream.
Context (libm : Libm).

(** The output callback of [create_stream] (lines 985-990): one
    [get_next_sample] per slot of [data], in order; slot [i] is filled at
    instant [fst (slots i)] with the random draws [snd (slots i)]. *)
Fixpoint fill (s : Synth.t) (slots : list (Q * (nat -> Q))) : M (list Q * Synth.t) :=
  match slots with
  | [] => ret ([], s)
  | (now, rng) :: slots' =>
      '(x, s) <- Synth.get_next_sample libm s now rng ;;
      '(xs, s) <- fill s slots' ;;
      ret (x :: xs, s)
  end.

End Stream.

End SynthApp.


(** ** Placeholder [f32] functions, for concrete evaluation

    Used only where the computation at hand does not call them, or where a
    hypothesis on them is all that is needed. *)
Definition libm_stub : Libm :=
  {| sin := fun x => x; tanh := fun x => x; sqrt := fun x => x; powf := fun _ _ => 1 |}.

(** A library whose [sin] stays in [-1, 1], as [f32::sin] does: the
    identity clamped to that range. *)
Definition libm_clamp : Libm :=
  {| sin := fun x => if Qle_bool x (-1) then -1 else if Qle_bool 1 x then 1 else x;
     tanh := fun x => x; sqrt := fun x => x; powf := fun _ _ => 1 |}.

(** A library whose [powf b x] is [b] to the integer part of [x]: exact on
    integer exponents, so that [2^(x + 1) = 2 * 2^x] holds. *)
Definition libm_floor_pow : Libm :=
  {| sin := fun x => x; tanh := fun x => x; sqrt := fun x => x;
     powf := fun b x => b ^ Qfloor x |}.

(** ** Running an effect over a signal *)
Fixpoint run_effect (libm : Libm) (e : Effect.t) (xs : list Q) (sample_rate : Q)
    : M (list Q * Effect.t) :=
  match xs with
  | [] => ret ([], e)
  | x :: xs' =>
      '(y, e) <- Effect.process libm e x sample_rate ;;
      '(ys, e) <- run_effect libm e xs' sample_rate ;;
      ret (y :: ys, e)
  end.

(** ** The invariant of a voice's envelopes *)
Definition voice_inv (v : Voice.t) : Prop :=
  Envelope.start_time (Voice.envelope v) <> None /\
  (Envelope.release_time (Voice.envelope v) <> None <->
     Envelope.is_released (Voice.envelope v) = true) /\
  FrequencyEnvelope.start_time (Voice.frequency_envelope v) <> None /\
  (FrequencyEnvelope.release_time (Voice.frequency_envelope v) <> None <->
     FrequencyEnvelope.is_released (Voice.frequency_envelope v) = true).

Definition synth_inv (s : Synth.t) : Prop :=
  Forall (fun kv => voice_inv (snd kv)) (Synth.voices s).

(** [logs P m]: every division by zero [m] logs on success satisfies [P]. *)
Definition logs (P : div_site -> Prop) {A} (m : M A) : Prop :=
  forall a l, m = inr (a, l) -> Forall P l.


(** The buffer of a delay line with [k] samples of [inp] written: the cell
    [d] places ahead of the cursor holds the input [L - d] samples back. *)
Definition delay_inv (inp : nat -> Q) (L k : nat) (buf : list Q) : Prop :=
  length buf = L /\
  forall d, (d < L)%nat ->
    nth (Nat.modulo (k + d) L) buf 0 == (if Nat.ltb (k + d) L then 0 else inp (k + d - L)%nat).

(** The same voice with another waveform (all other fields, including the
    phases, unchanged). *)
Definition with_waveform (v : Voice.t) (w : Waveform) : Voice.t :=
  {| Voice.frequency := Voice.frequency v; Voice.waveform := w;
     Voice.envelope := Voice.envelope v;
     Voice.frequency_envelope := Voice.frequency_envelope v;
     Voice.phase := Voice.phase v; Voice.pitch_bend := Voice.pitch_bend v;
     Voice.harmonic_phases := Voice.harmonic_phases v |}.


(** [m] does not panic, and its result satisfies [P]. *)
Definition ok {A} (P : A -> Prop) (m : M A) : Prop :=
  exists a l, m = inr (a, l) /\ P a.

(** The cursors of an effect index into their buffers, and the per-voice
    vectors of a chorus are as long as its buffer list (with depths in
    [[0, 1]], the range of their slider). *)
Definition rings_ok (bufs : list (list Q)) (poss : list nat) : Prop :=
  length poss = length bufs /\
  forall i, (i < length bufs)%nat -> (nth i poss 0 < length (nth i bufs []))%nat.

Definition effect_wf (e : Effect.t) : Prop :=
  match e with
  | Effect.Delay p =>
      (DelayParameters.position p < length (DelayParameters.buffer p))%nat
  | Effect.Chorus p =>
      let n := length (ChorusParameters.buffers p) in
      rings_ok (ChorusParameters.buffers p) (ChorusParameters.positions p) /\
      length (ChorusParameters.rates p) = n /\
      length (ChorusParameters.depths p) = n /\
      length (ChorusParameters.phases p) = n /\
      (forall i, (i < n)%nat ->
         0 <= nth i (ChorusParameters.depths p) 0 <= 1)
  | Effect.Reverb p =>
      rings_ok (ReverbParameters.comb_filters p) (ReverbParameters.comb_positions p) /\
      rings_ok (ReverbParameters.allpass_filters p) (ReverbParameters.allpass_positions p)
  | _ => True
  end.


Definition stack_wf (fx : EffectStack.t) : Prop := Forall effect_wf (EffectStack.effects fx).

(** A voice as [note_on] builds it and the synth keeps it: the envelope
    invariant, and the 16 harmonic phases of [[f32; 16]]. *)
Definition voice_ok (v : Voice.t) : Prop :=
  voice_inv v /\ length (Voice.harmonic_phases v) = 16%nat.

(** A synth state the audio callback can run on: well-formed voices and
    effects, and a sample rate at which every delay line [Effect::new_reverb]
    and [Effect::new_chorus] allocate holds at least one sample
    ([(sample_rate * 0.0017) as usize >= 1], i.e. at least 1/0.0017 Hz, about 588.24 Hz). *)
Definition synth_ok (s : Synth.t) : Prop :=
  Forall (fun kv => voice_ok (snd kv)) (Synth.voices s) /\
  stack_wf (Synth.effects s) /\ 1 <= Synth.sample_rate s * 0.0017.


(** A [Filter] effect by its fields. *)
Definition filter_state (cutoff res mix pin pout : Q) : Effect.t :=
  Effect.Filter {| FilterParameters.cutoff := cutoff; FilterParameters.resonance := res;
                   FilterParameters.mix := mix; FilterParameters.prev_input := pin;
                   FilterParameters.prev_output := pout |}.

(** * Lemmas *)

Lemma qlt_true a b : qlt a b = true <-> a < b.
Proof.
  unfold qlt. rewrite negb_true_iff. split; intro H.
  - destruct (Qlt_le_dec a b) as [|Hle]; auto.
    apply Qle_bool_iff in Hle. congruence.
  - destruct (Qle_bool b a) eqn:E; auto.
    apply Qle_bool_iff in E. exfalso. apply (Qlt_not_le a b); auto.
Qed.

Lemma qlt_false a b : qlt a b = false <-> b <= a.
Proof.
  unfold qlt. rewrite negb_false_iff. apply Qle_bool_iff.
Qed.

Lemma qle_true a b : qle a b = true <-> a <= b.
Proof. apply Qle_bool_iff. Qed.

Lemma qle_false a b : qle a b = false <-> b < a.
Proof.
  unfold qle. split; intro H.
  - destruct (Qlt_le_dec b a) as [|Hle]; auto.
    apply Qle_bool_iff in Hle. congruence.
  - destruct (Qle_bool a b) eqn:E; auto.
    apply Qle_bool_iff in E. exfalso. apply (Qlt_not_le b a); auto.
Qed.

Lemma elapsed_nonneg t now : 0 <= elapsed t now.
Proof.
  unfold elapsed. destruct (qlt t now) eqn:E.
  - apply qlt_true in E. lra.
  - lra.
Qed.

Lemma bind_inr {A B} (m : M A) (f : A -> M B) b l :
  bind m f = inr (b, l) ->
  exists a l1 l2, m = inr (a, l1) /\ f a = inr (b, l2) /\ l = l1 ++ l2.
Proof.
  unfold bind. destruct m as [p | [a l1]]; [discriminate |].
  destruct (f a) as [p | [b' l2]] eqn:E; [discriminate |].
  intros H. inversion H; subst.
  exists a, l1, l2. auto.
Qed.

Lemma hm_replace_get {V} (m m' : list (note * V)) k v :
  hm_replace m k v = Some m' ->
  hm_get m' k = Some v /\ forall k', k' <> k -> hm_get m' k' = hm_get m k'.
Proof.
  revert m'. induction m as [|[k0 v0] m IH]; simpl; intros m' H; [discriminate|].
  destruct (N.eqb k k0) eqn:E.
  - inversion H; subst. apply N.eqb_eq in E; subst. simpl. rewrite N.eqb_refl.
    split; auto. intros k' Hk'. apply N.eqb_neq in Hk'. rewrite Hk'. reflexivity.
  - destruct (hm_replace m k v) as [m1|] eqn:E1; simpl in H; [|discriminate].
    inversion H; subst. destruct (IH m1 eq_refl) as [H1 H2]. simpl. rewrite E.
    split; auto. intros k' Hk'. destruct (N.eqb k' k0); auto.
Qed.

Lemma hm_replace_none {V} (m : list (note * V)) k v :
  hm_replace m k v = None -> hm_get m k = None.
Proof.
  induction m as [|[k0 v0] m IH]; simpl; auto.
  destruct (N.eqb k k0); [discriminate|].
  destruct (hm_replace m k v); simpl; [discriminate|auto].
Qed.

Lemma hm_get_app {V} (m : list (note * V)) k k' v :
  hm_get m k' = None -> hm_get (m ++ [(k, v)]) k' = if N.eqb k' k then Some v else None.
Proof.
  induction m as [|[k0 v0] m IH]; simpl; intros H; auto.
  destruct (N.eqb k' k0); [discriminate|auto].
Qed.

Lemma hm_get_app_other {V} (m : list (note * V)) k k' v :
  k' <> k -> hm_get (m ++ [(k, v)]) k' = hm_get m k'.
Proof.
  intros Hk. induction m as [|[k0 v0] m IH]; simpl.
  - apply N.eqb_neq in Hk. rewrite Hk. reflexivity.
  - destruct (N.eqb k' k0); auto.
Qed.

Lemma hm_insert_get {V} (m : list (note * V)) k v :
  hm_get (hm_insert m k v) k = Some v /\
  forall k', k' <> k -> hm_get (hm_insert m k v) k' = hm_get m k'.
Proof.
  unfold hm_insert. destruct (hm_replace m k v) as [m'|] eqn:E.
  - apply hm_replace_get. exact E.
  - apply hm_replace_none in E. split.
    + rewrite hm_get_app; auto. rewrite N.eqb_refl. reflexivity.
    + intros k' Hk'. apply hm_get_app_other. exact Hk'.
Qed.

Lemma hm_insert_In {V} (m : list (note * V)) k v k' v' :
  In (k', v') (hm_insert m k v) -> In (k', v') m \/ (k', v') = (k, v).
Proof.
  unfold hm_insert. destruct (hm_replace m k v) as [m'|] eqn:E.
  - revert m' E. induction m as [|[k0 v0] m IH]; simpl; intros m' E; [discriminate|].
    destruct (N.eqb k k0).
    + inversion E; subst. intros [H|H]; auto.
    + destruct (hm_replace m k v) as [m1|] eqn:E1; simpl in E; [|discriminate].
      inversion E; subst. intros [H|H]; auto.
      destruct (IH m1 eq_refl H); auto.
  - intros H. apply in_app_or in H. destruct H as [H|[H|[]]]; auto.
Qed.

Lemma fresh_voice_inv libm s n now : voice_inv (Synth.fresh_voice libm s n now).
Proof.
  unfold voice_inv, Synth.fresh_voice; simpl.
  repeat split; try discriminate; intros H; try discriminate; congruence.
Qed.

Lemma release_voice_inv v now : voice_inv v -> voice_inv (Synth.release_voice v now).
Proof.
  unfold voice_inv, Synth.release_voice; simpl. intros (H1 & _ & H3 & _).
  repeat split; auto; discriminate.
Qed.

Lemma Forall_hm_insert (P : note * Voice.t -> Prop) m k v :
  Forall P m -> P (k, v) -> Forall P (hm_insert m k v).
Proof.
  intros Hm Hkv. apply Forall_forall. intros [k' v'] Hin.
  destruct (hm_insert_In m k v k' v' Hin) as [H|H].
  - eapply Forall_forall in Hm; eauto.
  - rewrite H. exact Hkv.
Qed.

Lemma hm_get_In {V} (m : list (note * V)) k v : hm_get m k = Some v -> In (k, v) m.
Proof.
  induction m as [|[k0 v0] m IH]; simpl; [discriminate|].
  destruct (N.eqb k k0) eqn:E; intros H.
  - inversion H; subst. apply N.eqb_eq in E; subst. auto.
  - auto.
Qed.

Lemma retain_In vs now r : Synth.retain vs now = inr r -> forall x, In x r -> In x vs.
Proof.
  revert r. induction vs as [|[k v] vs IH]; simpl; intros r H.
  - inversion H; subst. intros x [].
  - destruct (Synth.keep_voice v now) as [p|b]; [discriminate|].
    destruct (Synth.retain vs now) as [p|r'] eqn:E; [discriminate|].
    inversion H; subst. intros x Hx.
    destruct b; [destruct Hx as [Hx|Hx]; auto|]; right; eapply IH; eauto.
Qed.

Lemma retain_ok vs now :
  Forall (fun kv => voice_inv (snd kv)) vs -> exists r, Synth.retain vs now = inr r.
Proof.
  induction vs as [|[k v] vs IH]; simpl; intros H; [eauto|].
  inversion H as [|? ? Hv Hvs]; subst. destruct (IH Hvs) as [r Hr].
  unfold Synth.keep_voice. destruct Hv as (_ & [Hrel Hrel'] & _). simpl in Hrel, Hrel'.
  destruct (Envelope.is_released (Voice.envelope v)) eqn:E; simpl.
  - destruct (Envelope.release_time (Voice.envelope v)) eqn:E2.
    + rewrite Hr. eauto.
    + exfalso. apply Hrel'; reflexivity.
  - rewrite Hr. eauto.
Qed.

Lemma get_sample_envelopes libm v sr now rnd x v' l :
  Voice.get_sample libm v sr now rnd = inr ((x, v'), l) ->
  Voice.envelope v' = Voice.envelope v /\
  Voice.frequency_envelope v' = Voice.frequency_envelope v.
Proof.
  unfold Voice.get_sample. intros H.
  apply bind_inr in H as (step & l1 & l2 & _ & H & _).
  apply bind_inr in H as ([smp hps] & l3 & l4 & _ & H & _).
  inversion H; subst. simpl. auto.
Qed.

Lemma sample_voices_envelopes libm vs sr now rng i sum vs' l :
  Synth.sample_voices libm vs sr now rng i = inr ((sum, vs'), l) ->
  Forall2 (fun a b => fst a = fst b /\
                      Voice.envelope (snd b) = Voice.envelope (snd a) /\
                      Voice.frequency_envelope (snd b) = Voice.frequency_envelope (snd a))
          vs vs'.
Proof.
  revert i sum vs' l. induction vs as [|[k v] vs IH]; simpl; intros i sum vs' l H.
  - inversion H; subst. constructor.
  - apply bind_inr in H as ([x v1] & l1 & l2 & Hv & H & _).
    apply bind_inr in H as ([sum' vs1] & l3 & l4 & Hvs & H & _).
    inversion H; subst. apply get_sample_envelopes in Hv as [He Hf].
    constructor; [simpl; auto|]. eapply IH; eauto.
Qed.

Lemma sample_voices_length libm vs sr now rng i sum vs' l :
  Synth.sample_voices libm vs sr now rng i = inr ((sum, vs'), l) -> length vs' = length vs.
Proof.
  intros H. apply sample_voices_envelopes in H. symmetry. eapply Forall2_length; eauto.
Qed.

Lemma Forall2_In_r {A B} (R : A -> B -> Prop) l1 l2 y :
  Forall2 R l1 l2 -> In y l2 -> exists x, In x l1 /\ R x y.
Proof.
  induction 1; simpl; [intros []|]. intros [<-|Hy]; eauto.
  destruct (IHForall2 Hy) as (x' & ? & ?); eauto.
Qed.

Lemma get_next_sample_voices libm s now rng out s' l :
  Synth.get_next_sample libm s now rng = inr ((out, s'), l) ->
  forall k v', In (k, v') (Synth.voices s') ->
  exists v, In (k, v) (Synth.voices s) /\
            Voice.envelope v' = Voice.envelope v /\
            Voice.frequency_envelope v' = Voice.frequency_envelope v.
Proof.
  unfold Synth.get_next_sample.
  destruct (Synth.retain (Synth.voices s) now) as [p|vs] eqn:Er; [discriminate|].
  intros H. apply bind_inr in H as ([r vs1] & l1 & l2 & Hmix & H & _).
  apply bind_inr in H as ([o fx] & l3 & l4 & _ & H & _).
  inversion H; subst. simpl. intros k v' Hin.
  assert (Hin' : exists v, In (k, v) vs /\ Voice.envelope v' = Voice.envelope v /\
                 Voice.frequency_envelope v' = Voice.frequency_envelope v).
  { destruct vs as [|kv vs0].
    - inversion Hmix; subst. exists v'. auto.
    - apply bind_inr in Hmix as ([sum vs2] & l5 & l6 & Hs & Hmix & _).
      apply bind_inr in Hmix as (r' & l7 & l8 & _ & Hmix & _).
      inversion Hmix; subst.
      apply sample_voices_envelopes in Hs.
      destruct (Forall2_In_r _ _ _ _ Hs Hin) as ([k0 v0] & Hin0 & Hk & He & Hf).
      simpl in *; subst. exists v0. auto. }
  destruct Hin' as (v & Hv & He & Hf). exists v. split; auto.
  eapply retain_In; eauto.
Qed.

Section Logs.
Variable P : div_site -> Prop.

Lemma logs_ret {A} (x : A) : logs P (ret x).
Proof. intros a l H. inversion H. constructor. Qed.

Lemma logs_fail {A} p : logs P (@fail A p).
Proof. intros a l H. discriminate. Qed.

Lemma logs_bind_dep {A B} (m : M A) (f : A -> M B) :
  logs P m -> (forall a l, m = inr (a, l) -> logs P (f a)) -> logs P (bind m f).
Proof.
  intros Hm Hf b l H. apply bind_inr in H as (a & l1 & l2 & H1 & H2 & ->).
  apply Forall_app. split; [eapply Hm; eauto | eapply Hf; eauto].
Qed.

Lemma logs_bind {A B} (m : M A) (f : A -> M B) :
  logs P m -> (forall a, logs P (f a)) -> logs P (bind m f).
Proof. intros Hm Hf. apply logs_bind_dep; auto. Qed.

Lemma logs_fdiv s a b : P s -> logs P (fdiv s a b).
Proof.
  intros Hs x l H. inversion H. destruct (Qeq_bool b 0); auto.
Qed.

Lemma logs_fdiv_nz s a b : ~ b == 0 -> logs P (fdiv s a b).
Proof.
  intros Hb x l H. inversion H. destruct (Qeq_bool b 0) eqn:E; auto.
  apply Qeq_bool_iff in E. contradiction.
Qed.

Lemma logs_get {A} (xs : list A) i : logs P (get xs i).
Proof. unfold get. destruct (nth_error xs i); [apply logs_ret | apply logs_fail]. Qed.

Lemma logs_set {A} (xs : list A) i x : logs P (set xs i x).
Proof. unfold set. destruct (set_nth xs i x); [apply logs_ret | apply logs_fail]. Qed.

Lemma logs_rem a b : logs P (rem_usize a b).
Proof. unfold rem_usize. destruct (Nat.eqb b 0); [apply logs_fail | apply logs_ret]. Qed.

Lemma logs_sub a b : logs P (sub_usize a b).
Proof. unfold sub_usize. destruct (Nat.ltb a b); [apply logs_fail | apply logs_ret]. Qed.

Lemma logs_mfor {I S} (idx : list I) (body : I -> S -> M S) :
  (forall i s, logs P (body i s)) -> forall s, logs P (mfor idx body s).
Proof.
  intros Hb. induction idx as [|i idx IH]; intros s; simpl.
  - apply logs_ret.
  - apply logs_bind; auto.
Qed.

End Logs.

Ltac logs_tac :=
  repeat match goal with
  | |- logs _ (bind _ _) => apply logs_bind; [|intros ?]
  | |- logs _ (ret _) => apply logs_ret
  | |- logs _ (fail _) => apply logs_fail
  | |- logs _ (fdiv _ _ _) => apply logs_fdiv; first [discriminate | exact I]
  | |- logs _ (get _ _) => apply logs_get
  | |- logs _ (set _ _ _) => apply logs_set
  | |- logs _ (rem_usize _ _) => apply logs_rem
  | |- logs _ (sub_usize _ _) => apply logs_sub
  | |- logs _ (mfor _ _ _) => apply logs_mfor; intros ? ?
  | |- logs _ (Effect.chorus_step _ _ _ _ _ _) => unfold Effect.chorus_step
  | |- logs _ (Effect.comb_step _ _ _ _) => unfold Effect.comb_step
  | |- logs _ (Effect.allpass_step _ _) => unfold Effect.allpass_step
  | |- logs _ (Voice.harmonic_step _ _ _ _ _) => unfold Voice.harmonic_step
  | |- logs _ (match ?x with _ => _ end) => destruct x
  end.

Lemma get_sample_logs libm v sr now rnd :
  logs (fun s => s <> VoiceMean) (Voice.get_sample libm v sr now rnd).
Proof. unfold Voice.get_sample. cbv zeta. logs_tac. Qed.

Lemma process_logs libm e x sr :
  logs (fun s => s <> VoiceMean) (Effect.process libm e x sr).
Proof. unfold Effect.process. cbv zeta. logs_tac. Qed.

Lemma process_effects_logs libm effs x sr :
  logs (fun s => s <> VoiceMean) (EffectStack.process_effects libm effs x sr).
Proof.
  revert x. induction effs as [|e effs IH]; intros x; simpl; logs_tac.
  - apply process_logs.
  - apply IH.
Qed.

Lemma sample_voices_logs libm vs sr now rng i :
  logs (fun s => s <> VoiceMean) (Synth.sample_voices libm vs sr now rng i).
Proof.
  revert i. induction vs as [|[k v] vs IH]; intros i; simpl; logs_tac.
  - apply get_sample_logs.
  - apply IH.
Qed.

Lemma logs_nil {A} (m : M A) a l : logs (fun _ => False) m -> m = inr (a, l) -> l = [].
Proof.
  intros H Hm. specialize (H a l Hm). destruct l as [|x l]; auto.
  inversion H. contradiction.
Qed.

Lemma set_nth_length {A} (xs : list A) i x xs' : set_nth xs i x = Some xs' -> length xs' = length xs.
Proof.
  revert i xs'. induction xs as [|y xs IH]; intros [|i] xs' H; simpl in H; try discriminate.
  - inversion H; reflexivity.
  - destruct (set_nth xs i x) eqn:E; simpl in H; [|discriminate].
    inversion H; subst. simpl. f_equal. eapply IH; eauto.
Qed.

Lemma set_length {A} (xs : list A) i x xs' l : set xs i x = inr (xs', l) -> length xs' = length xs.
Proof.
  unfold set. destruct (set_nth xs i x) eqn:E; [|discriminate].
  intros H; inversion H; subst. eapply set_nth_length; eauto.
Qed.

Lemma mfor_preserve {I S} (Inv : S -> Prop) (idx : list I) (body : I -> S -> M S) :
  (forall i s s' l, Inv s -> body i s = inr (s', l) -> Inv s') ->
  forall s s' l, Inv s -> mfor idx body s = inr (s', l) -> Inv s'.
Proof.
  intros Hb. induction idx as [|i idx IH]; intros s s' l Hs H; simpl in H.
  - inversion H; subst; auto.
  - apply bind_inr in H as (s1 & l1 & l2 & H1 & H2 & _). eauto.
Qed.

Lemma comb_step_length sample fb i st st' l :
  Effect.comb_step sample fb i st = inr (st', l) ->
  length (snd (fst st')) = length (snd (fst st)).
Proof.
  destruct st as [[acc combs] cpos]. unfold Effect.comb_step. intros H.
  apply bind_inr in H as (buf & l1 & l2 & _ & H & _).
  apply bind_inr in H as (pos & l3 & l4 & _ & H & _).
  apply bind_inr in H as (d & l5 & l6 & _ & H & _).
  apply bind_inr in H as (buf' & l7 & l8 & _ & H & _).
  apply bind_inr in H as (combs' & l9 & l10 & Hc & H & _).
  apply bind_inr in H as (pos' & l11 & l12 & _ & H & _).
  apply bind_inr in H as (cpos' & l13 & l14 & _ & H & _).
  inversion H; subst. simpl. eapply set_length; eauto.
Qed.

Lemma Qeq_bool_of_nat n : Qeq_bool (inject_Z (Z.of_nat n)) 0 = Nat.eqb n 0.
Proof. destruct n; reflexivity. Qed.

Lemma inject_of_nat_S_nz n : ~ inject_Z (Z.of_nat (S n)) == 0.
Proof. unfold Qeq; simpl; lia. Qed.

Lemma div_unit_interval x y : 0 <= x -> x < y -> 0 <= x / y /\ x / y < 1.
Proof.
  intros H1 H2. split.
  - apply Qle_shift_div_l; lra.
  - apply Qlt_shift_div_r; lra.
Qed.

Lemma div_pos x y : 0 < x -> 0 < y -> 0 < x / y.
Proof. intros. apply Qlt_shift_div_l; lra. Qed.

Lemma div_nonneg x y : 0 <= x -> 0 < y -> 0 <= x / y.
Proof. intros. apply Qle_shift_div_l; lra. Qed.

Lemma fmod_range x y : 0 <= x -> 0 < y -> 0 <= fmod x y /\ fmod x y < y.
Proof.
  intros Hx Hy. unfold fmod, qtrunc.
  assert (Hq : 0 <= x / y) by (apply div_nonneg; auto).
  apply Qle_bool_iff in Hq. rewrite Hq. apply Qle_bool_iff in Hq.
  pose proof (Qfloor_le (x / y)) as H1. pose proof (Qlt_floor (x / y)) as H2.
  rewrite inject_Z_plus in H2. change (inject_Z 1) with 1 in H2.
  assert (Hxy : y * (x / y) == x) by (apply Qmult_div_r; lra).
  set (f := inject_Z (Qfloor (x / y))) in *. set (q := x / y) in *.
  split; nra.
Qed.

Lemma multiplier_pos (e : FrequencyEnvelope.t) now :
  0 < FrequencyEnvelope.start_freq e -> 0 < FrequencyEnvelope.peak_freq e ->
  0 < FrequencyEnvelope.sustain_freq e ->
  0 < FrequencyEnvelope.get_frequency_multiplier e now.
Proof.
  intros Hs Hp Hsu. unfold FrequencyEnvelope.get_frequency_multiplier.
  assert (Hpm : 0 < FrequencyEnvelope.peak_freq e / FrequencyEnvelope.start_freq e)
    by (apply div_pos; auto).
  assert (Hsm : 0 < FrequencyEnvelope.sustain_freq e / FrequencyEnvelope.start_freq e)
    by (apply div_pos; auto).
  set (pm := FrequencyEnvelope.peak_freq e / FrequencyEnvelope.start_freq e) in *.
  set (sm := FrequencyEnvelope.sustain_freq e / FrequencyEnvelope.start_freq e) in *.
  destruct (FrequencyEnvelope.start_time e) as [st|]; [|lra]. cbv zeta.
  pose proof (elapsed_nonneg st now) as Hel. set (el := elapsed st now) in *.
  assert (Hnr : (if qlt el (FrequencyEnvelope.attack e) then
                   1 + (pm - 1) * (el / FrequencyEnvelope.attack e)
                 else if qlt el (FrequencyEnvelope.attack e + FrequencyEnvelope.decay e) then
                   pm + (sm - pm) * ((el - FrequencyEnvelope.attack e) / FrequencyEnvelope.decay e)
                 else sm) > 0).
  { destruct (qlt el (FrequencyEnvelope.attack e)) eqn:E1.
    - apply qlt_true in E1. destruct (div_unit_interval el (FrequencyEnvelope.attack e))
        as [H1 H2]; auto. nra.
    - apply qlt_false in E1.
      destruct (qlt el (FrequencyEnvelope.attack e + FrequencyEnvelope.decay e)) eqn:E2; [|lra].
      apply qlt_true in E2.
      destruct (div_unit_interval (el - FrequencyEnvelope.attack e) (FrequencyEnvelope.decay e))
        as [H1 H2]; [lra|lra|]. nra. }
  destruct (FrequencyEnvelope.is_released e); [|exact Hnr].
  destruct (FrequencyEnvelope.release_time e) as [rt|]; [|exact Hnr].
  pose proof (elapsed_nonneg rt now) as Hre. set (re := elapsed rt now) in *.
  destruct (qle (FrequencyEnvelope.release e) re) eqn:E; [lra|].
  apply qle_false in E.
  destruct (div_unit_interval re (FrequencyEnvelope.release e)) as [H1 H2]; auto. nra.
Qed.

Lemma firstn_combine_seq_In k a len (ws : list Q) h w :
  In (h, w) (firstn k (combine (seq a len) ws)) -> (a <= h < a + k)%nat.
Proof.
  revert a len ws. induction k as [|k IH]; intros a len ws H; [destruct H|].
  destruct len as [|len]; [destruct H|]. destruct ws as [|w0 ws]; [destruct H|].
  simpl in H. destruct H as [H|H].
  - inversion H; subst. lia.
  - apply IH in H. lia.
Qed.

Lemma mfor_ok {I S} (Inv : S -> Prop) (idx : list I) (body : I -> S -> M S) :
  (forall i s, In i idx -> Inv s -> exists s' l, body i s = inr (s', l) /\ Inv s') ->
  forall s, Inv s -> exists s' l, mfor idx body s = inr (s', l) /\ Inv s'.
Proof.
  induction idx as [|i idx IH]; intros Hb s Hs; simpl.
  - exists s, []. auto.
  - destruct (Hb i s (or_introl eq_refl) Hs) as (s1 & l1 & H1 & Hs1).
    destruct (IH (fun j s Hj => Hb j s (or_intror Hj)) s1 Hs1) as (s2 & l2 & H2 & Hs2).
    exists s2, (l1 ++ l2). unfold bind. rewrite H1, H2. auto.
Qed.

Lemma set_nth_ok {A} (xs : list A) i x : (i < length xs)%nat -> exists xs', set_nth xs i x = Some xs'.
Proof.
  revert i. induction xs as [|y xs IH]; intros [|i] H; simpl in *; try lia; eauto.
  destruct (IH i ltac:(lia)) as [xs' E]. rewrite E. simpl. eauto.
Qed.

Lemma harmonic_step_ok libm cf sr h w sum hps :
  (h < length hps)%nat ->
  exists st l, Voice.harmonic_step libm cf sr (h, w) (sum, hps) = inr (st, l) /\
               length (snd st) = length hps.
Proof.
  intros Hh. unfold Voice.harmonic_step.
  destruct (qlt _ _); [|exists (sum, hps), []; auto].
  destruct (nth_error hps h) as [hp|] eqn:E1;
    [|apply nth_error_None in E1; lia].
  destruct (set_nth_ok hps h (fmod (hp + cf * inject_Z (Z.of_nat (h + 1)) * 2 * PI / sr) (2 * PI)) Hh)
    as [hps' E2].
  pose proof (set_nth_length _ _ _ _ E2) as Hlen.
  destruct (nth_error hps' h) as [hp'|] eqn:E3;
    [|apply nth_error_None in E3; lia].
  unfold bind, fdiv, get, set, ret. rewrite E1, E2, E3. simpl.
  do 2 eexists. split; [reflexivity|]. simpl. exact Hlen.
Qed.

Lemma get_sample_ok libm v sr now rnd :
  length (Voice.harmonic_phases v) = 16%nat ->
  exists r, Voice.get_sample libm v sr now rnd = inr r.
Proof.
  intros H16. unfold Voice.get_sample. cbv zeta.
  set (cf := Voice.frequency v * Voice.pitch_bend v *
             FrequencyEnvelope.get_frequency_multiplier (Voice.frequency_envelope v) now).
  assert (Hw : exists r, (match Voice.waveform v with
    | Sine => ret (sin libm (Voice.phase v), Voice.harmonic_phases v)
    | Square => ret (if qle 0 (sin libm (Voice.phase v)) then 1 else -1, Voice.harmonic_phases v)
    | Sawtooth => ret (fmod (Voice.phase v) (2 * PI) / (2 * PI) * 2 - 1, Voice.harmonic_phases v)
    | Triangle =>
        ret (if qlt (fmod (Voice.phase v) (2 * PI) / (2 * PI)) 0.5
             then fmod (Voice.phase v) (2 * PI) / (2 * PI) * 4 - 1
             else 3 - fmod (Voice.phase v) (2 * PI) / (2 * PI) * 4, Voice.harmonic_phases v)
    | Noise => ret (rnd * 2 - 1, Voice.harmonic_phases v)
    | Additive num_harmonics harmonic_weights =>
        x <- mfor (firstn (Nat.min num_harmonics 16)
                     (combine (seq 0 (length harmonic_weights)) harmonic_weights))
                  (Voice.harmonic_step libm cf sr) (0, Voice.harmonic_phases v) ;;
        match x with
        | (sum, hps) =>
            s <- fdiv AdditiveNorm sum (sqrt libm (inject_Z (Z.of_nat num_harmonics))) ;;
            ret (s, hps)
        end
    end) = inr r).
  { destruct (Voice.waveform v) as [| | | | |n ws]; try (eexists; reflexivity).
    destruct (mfor_ok (fun st : Q * list Q => length (snd st) = 16%nat)
                (firstn (Nat.min n 16) (combine (seq 0 (length ws)) ws))
                (Voice.harmonic_step libm cf sr))
      with (s := (0, Voice.harmonic_phases v)) as ([sum hps] & l & Hm & _); auto.
    - intros [h w] [sum hps] Hin Hl. simpl in Hl.
      apply firstn_combine_seq_In in Hin.
      destruct (harmonic_step_ok libm cf sr h w sum hps) as (st & l & H1 & H2); [lia|].
      exists st, l. split; auto. rewrite H2. exact Hl.
    - unfold bind at 1. rewrite Hm. unfold fdiv, bind, ret. eexists. reflexivity. }
  destruct Hw as [[[smp hps] l] Hw].
  unfold bind at 1. unfold fdiv at 1.
  unfold bind at 1. rewrite Hw. unfold ret. eexists. reflexivity.
Qed.

Lemma get_sample_phase libm v sr now rnd out v' l :
  Voice.get_sample libm v sr now rnd = inr ((out, v'), l) ->
  Voice.phase v' =
    fmod (Voice.phase v +
          Voice.frequency v * Voice.pitch_bend v *
          FrequencyEnvelope.get_frequency_multiplier (Voice.frequency_envelope v) now *
          2 * PI / sr) (2 * PI).
Proof.
  unfold Voice.get_sample. intros H.
  apply bind_inr in H as (step & l1 & l2 & Hs & H & _).
  apply bind_inr in H as ([smp hps] & l3 & l4 & _ & H & _).
  unfold fdiv in Hs. inversion Hs; subst. inversion H; subst. reflexivity.
Qed.

Lemma mod_shift_ne k e L : (1 <= e < L)%nat -> (Nat.modulo (k + e) L <> Nat.modulo k L)%nat.
Proof.
  intros He. assert (HL : L <> 0%nat) by lia.
  pose proof (Nat.div_mod k L HL) as Hk. pose proof (Nat.mod_upper_bound k L HL) as Hr.
  set (q := (k / L)%nat) in *. set (r := (Nat.modulo k L)%nat) in *.
  destruct (Nat.lt_ge_cases (r + e) L) as [Hs|Hs].
  - rewrite <- (Nat.mod_unique (k + e) L q (r + e)); lia.
  - rewrite <- (Nat.mod_unique (k + e) L (S q) (r + e - L)); lia.
Qed.

Lemma mod_shift_L k L : (Nat.modulo (k + L) L = Nat.modulo k L)%nat.
Proof. rewrite <- (Nat.mul_1_l L) at 1. apply Nat.Div0.mod_add. Qed.

Lemma nth_set_nth {A} (xs xs' : list A) i x j d :
  set_nth xs i x = Some xs' -> nth j xs' d = if Nat.eqb j i then x else nth j xs d.
Proof.
  revert i j xs'. induction xs as [|y xs IH]; intros [|i] j xs' H; simpl in H; try discriminate.
  - inversion H; subst. destruct j; reflexivity.
  - destruct (set_nth xs i x) as [xs1|] eqn:E; simpl in H; [|discriminate].
    inversion H; subst. destruct j as [|j]; [reflexivity|]. simpl. apply IH. exact E.
Qed.

Section DelayEcho.
Variable libm : Libm.
Variable inp : nat -> Q.
Variable sr : Q.

Lemma delay_run n : forall k (p : DelayParameters.t),
  let L := length (DelayParameters.buffer p) in
  (0 < L)%nat -> DelayParameters.position p = (Nat.modulo k L)%nat ->
  DelayParameters.feedback p == 0 -> DelayParameters.mix p == 1 ->
  delay_inv inp L k (DelayParameters.buffer p) ->
  exists ys e' l, run_effect libm (Effect.Delay p) (map inp (seq k n)) sr = inr ((ys, e'), l) /\
    length ys = n /\
    forall i, (i < n)%nat -> nth i ys 0 == (if Nat.ltb (k + i) L then 0 else inp (k + i - L)%nat).
Proof.
  induction n as [|n IH]; intros k p L HL Hpos Hfb Hmix [Hlen Hinv].
  - exists [], (Effect.Delay p), []. split; [reflexivity|]. split; [reflexivity|]. lia.
  - set (buf := DelayParameters.buffer p) in *.
    assert (Hk : (Nat.modulo k L < L)%nat) by (apply Nat.mod_upper_bound; lia).
    destruct (nth_error buf (Nat.modulo k L)) as [delayed|] eqn:Hd;
      [|apply nth_error_None in Hd; lia].
    assert (Hdel : delayed == (if Nat.ltb k L then 0 else inp (k - L)%nat)).
    { specialize (Hinv 0%nat HL). rewrite Nat.add_0_r in Hinv.
      rewrite (nth_error_nth buf (Nat.modulo k L) 0 Hd) in Hinv. exact Hinv. }
    destruct (set_nth_ok buf (Nat.modulo k L) (inp k + delayed * DelayParameters.feedback p) Hk)
      as [buf' Hset].
    pose proof (set_nth_length _ _ _ _ Hset) as Hlen'.
    set (p' := {| DelayParameters.buffer := buf';
                  DelayParameters.position := (Nat.modulo (Nat.modulo k L + 1) (length buf'))%nat;
                  DelayParameters.delay_time := DelayParameters.delay_time p;
                  DelayParameters.feedback := DelayParameters.feedback p;
                  DelayParameters.mix := DelayParameters.mix p |}).
    assert (Hstep : Effect.process libm (Effect.Delay p) (inp k) sr =
                    inr ((inp k * (1 - DelayParameters.mix p) + delayed * DelayParameters.mix p,
                          Effect.Delay p'), [])).
    { unfold Effect.process, get, set, rem_usize, bind, ret. fold buf.
      rewrite Hpos, Hd, Hset. fold L. rewrite Hlen'.
      unfold p'. rewrite Hlen', Hlen.
      destruct (Nat.eqb L 0) eqn:E0; [apply Nat.eqb_eq in E0; lia|]. reflexivity. }
    assert (HL' : length (DelayParameters.buffer p') = L) by (simpl; lia).
    destruct (IH (S k) p') as (ys & e' & l & Hrun & Hys & Hout).
    + rewrite HL'. exact HL.
    + rewrite HL'. simpl. rewrite Hlen', Hlen. fold L.
      rewrite Nat.Div0.add_mod_idemp_l. f_equal. lia.
    + exact Hfb.
    + exact Hmix.
    + rewrite HL'. split; [exact HL'|]. intros d Hd'. simpl.
      rewrite (nth_set_nth _ _ _ _ _ _ Hset).
      destruct (Nat.eqb_spec (Nat.modulo (S (k + d)) L) (Nat.modulo k L)) as [E|E].
      * assert (d = L - 1)%nat.
        { destruct (Nat.eq_dec d (L - 1)); auto.
          exfalso. apply (mod_shift_ne k (S d) L); [lia|].
          replace (k + S d)%nat with (S k + d)%nat by lia. exact E. }
        subst d. replace (S (k + (L - 1)))%nat with (k + L)%nat by lia.
        replace (Nat.ltb (k + L) L) with false by (symmetry; apply Nat.ltb_ge; lia).
        replace (k + L - L)%nat with k by lia.
        setoid_rewrite Hfb. rewrite Qmult_0_r, Qplus_0_r.
        match goal with |- _ == inp ?t => replace t with k; [reflexivity|] end.
        clear -HL. clearbody L. destruct L; lia.
      * assert (Hd1 : (S d < L)%nat).
        { destruct (Nat.eq_dec (S d) L) as [E'|E']; [|lia].
          exfalso. apply E. replace (S (k + d)) with (k + L)%nat by lia. apply mod_shift_L. }
        specialize (Hinv (S d) Hd1). replace (k + S d)%nat with (S k + d)%nat in Hinv by lia.
        exact Hinv.
    + exists (inp k * (1 - DelayParameters.mix p) + delayed * DelayParameters.mix p :: ys), e', l.
      split.
      { cbn [run_effect map seq]. unfold bind at 1. rewrite Hstep. fold L. rewrite Hrun. simpl. rewrite app_nil_r. reflexivity. }
      split; [simpl; lia|].
      intros [|i] Hi; simpl.
      * rewrite Nat.add_0_r. rewrite <- Hdel. setoid_rewrite Hmix. ring.
      * rewrite HL' in Hout. replace (k + S i)%nat with (S k + i)%nat by lia. apply Hout. lia.
Qed.

End DelayEcho.

Lemma map_nth_seq (xs : list Q) :
  map (fun i => nth i xs 0) (seq 0 (length xs)) = xs.
Proof.
  induction xs as [|x xs IH]; simpl; [reflexivity|]. f_equal.
  rewrite <- seq_shift, map_map. exact IH.
Qed.

Lemma zeros_length l : length (Effect.zeros l) = length l.
Proof. apply length_map. Qed.

Lemma nth_zeros l i : nth i (Effect.zeros l) 0 = 0.
Proof.
  revert i. induction l as [|x l IH]; intros [|i]; simpl; auto.
Qed.

Lemma zeros_repeat n : Effect.zeros (repeat 0 n) = repeat 0 n.
Proof. induction n as [|n IH]; simpl; [reflexivity|]. f_equal. exact IH. Qed.


(** * Claims *)

(** C1. [Envelope::get_amplitude] is 0 before [start_time] is set. Once
    started, with [elapsed] the time since [start_time]: while not released
    it is [elapsed/attack] during the first [attack] seconds,
    [1 - (1-sustain)*(elapsed-attack)/decay] during the next [decay] seconds
    and [sustain] afterwards; once released with [release_time] set, with
    [release_elapsed] the time since [release_time], it is
    [sustain*(1 - release_elapsed/release)] before [release] seconds and
    exactly 0 from then on. *)
Theorem get_amplitude_spec (e : Envelope.t) (now : Q) :
  (Envelope.start_time e = None -> Envelope.get_amplitude e now = 0) /\
  (forall st, Envelope.start_time e = Some st ->
     let el := elapsed st now in
     (Envelope.is_released e = false ->
        (el < Envelope.attack e -> Envelope.get_amplitude e now = el / Envelope.attack e) /\
        (Envelope.attack e <= el -> el < Envelope.attack e + Envelope.decay e ->
         Envelope.get_amplitude e now =
           1 - (1 - Envelope.sustain e) * (el - Envelope.attack e) / Envelope.decay e) /\
        (Envelope.attack e <= el -> Envelope.attack e + Envelope.decay e <= el ->
         Envelope.get_amplitude e now = Envelope.sustain e)) /\
     (forall rt, Envelope.is_released e = true -> Envelope.release_time e = Some rt ->
        let re := elapsed rt now in
        (re < Envelope.release e ->
         Envelope.get_amplitude e now = Envelope.sustain e * (1 - re / Envelope.release e)) /\
        (Envelope.release e <= re -> Envelope.get_amplitude e now = 0))).
Proof.
  unfold Envelope.get_amplitude. split.
  - intros H. rewrite H. reflexivity.
  - intros st Hst. rewrite Hst. cbv zeta. split.
    + intros Hr. rewrite Hr. repeat split; intros.
      * apply qlt_true in H. rewrite H. reflexivity.
      * apply qlt_false in H. apply qlt_true in H0. rewrite H, H0. reflexivity.
      * apply qlt_false in H. apply qlt_false in H0. rewrite H, H0. reflexivity.
    + intros rt Hr Hrt. rewrite Hr, Hrt. split; intros H.
      * apply qle_false in H. rewrite H. reflexivity.
      * apply qle_true in H. rewrite H. reflexivity.
Qed.

(** C6. [note_on] of a note whose voice exists and is not released returns
    the [Synth] unchanged: no field, no voice, no envelope changes. *)
Theorem note_on_held_noop (libm : Libm) (s : Synth.t) (n : note) (now : Q) (v : Voice.t)
    (Hv : hm_get (Synth.voices s) n = Some v)
    (Hheld : Envelope.is_released (Voice.envelope v) = false) :
  Synth.note_on libm s n now = s.
Proof.
  unfold Synth.note_on. rewrite Hv, Hheld. reflexivity.
Qed.

(** C7. An [EffectStack] with no effects returns its input unchanged, with
    its state unchanged and no division by zero. *)
Theorem empty_stack_identity (libm : Libm) (x sample_rate : Q) :
  EffectStack.process libm EffectStack.new x sample_rate = inr ((x, EffectStack.new), []).
Proof. reflexivity. Qed.

(** C9. Two [Filter] states that differ only in [resonance] give the same
    output and the same log for every sample and sample rate, and their
    successor states are again equal up to their own, unchanged,
    [resonance]. *)
Theorem filter_resonance_inert (libm : Libm) (cutoff r1 r2 mix pin pout x sample_rate : Q) :
  let f r := Effect.Filter {| FilterParameters.cutoff := cutoff;
                              FilterParameters.resonance := r;
                              FilterParameters.mix := mix;
                              FilterParameters.prev_input := pin;
                              FilterParameters.prev_output := pout |} in
  exists out pin' pout' log,
    Effect.process libm (f r1) x sample_rate =
      inr ((out, Effect.Filter {| FilterParameters.cutoff := cutoff;
                                  FilterParameters.resonance := r1;
                                  FilterParameters.mix := mix;
                                  FilterParameters.prev_input := pin';
                                  FilterParameters.prev_output := pout' |}), log) /\
    Effect.process libm (f r2) x sample_rate =
      inr ((out, Effect.Filter {| FilterParameters.cutoff := cutoff;
                                  FilterParameters.resonance := r2;
                                  FilterParameters.mix := mix;
                                  FilterParameters.prev_input := pin';
                                  FilterParameters.prev_output := pout' |}), log).
Proof.
  intros f. do 4 eexists. split; reflexivity.
Qed.

(** C10. [note_on] of a note whose voice exists but is released replaces
    that voice by a fresh one: phase 0, harmonic phases 0, both envelopes
    started at [now] and not released, the current global parameters
    copied; the other voices are unchanged. *)
Theorem note_on_released_replaces (libm : Libm) (s : Synth.t) (n : note) (now : Q) (v : Voice.t)
    (Hv : hm_get (Synth.voices s) n = Some v)
    (Hrel : Envelope.is_released (Voice.envelope v) = true) :
  let s' := Synth.note_on libm s n now in
  let v' := Synth.fresh_voice libm s n now in
  hm_get (Synth.voices s') n = Some v' /\
  (forall k, k <> n -> hm_get (Synth.voices s') k = hm_get (Synth.voices s) k) /\
  s' = Synth.set_voices s (hm_insert (Synth.voices s) n v') /\
  Voice.phase v' = 0 /\ Voice.harmonic_phases v' = repeat 0 16 /\
  Voice.pitch_bend v' = Synth.pitch_bend s /\
  Voice.envelope v' =
    {| Envelope.attack := Synth.attack s; Envelope.decay := Synth.decay s;
       Envelope.sustain := Synth.sustain s; Envelope.release := Synth.release s;
       Envelope.start_time := Some now; Envelope.release_time := None;
       Envelope.is_released := false |} /\
  FrequencyEnvelope.start_time (Voice.frequency_envelope v') = Some now /\
  FrequencyEnvelope.release_time (Voice.frequency_envelope v') = None /\
  FrequencyEnvelope.is_released (Voice.frequency_envelope v') = false /\
  FrequencyEnvelope.attack (Voice.frequency_envelope v') = Synth.freq_attack s /\
  FrequencyEnvelope.decay (Voice.frequency_envelope v') = Synth.freq_decay s /\
  FrequencyEnvelope.release (Voice.frequency_envelope v') = Synth.freq_release s.
Proof.
  intros s' v'. destruct (hm_insert_get (Synth.voices s) n v') as [H1 H2].
  assert (Hs' : s' = Synth.set_voices s (hm_insert (Synth.voices s) n v')).
  { unfold s', Synth.note_on. rewrite Hv, Hrel. reflexivity. }
  rewrite Hs'. unfold Synth.set_voices, Synth.set_voices_effects. simpl.
  repeat split; auto.
Qed.

(** C5. The invariant of every voice ([start_time] set; [release_time] set
    iff [is_released], for both envelopes) holds for [Synth::new] and is
    preserved by [note_on], [note_off] and [get_next_sample]; from a state
    where it holds the [release_time.unwrap()] of the [retain] of
    [get_next_sample] never panics. [start_time] is set once per voice:
    [note_on] leaves every voice as it was except the one it creates (when
    the note had no voice or a released one), whose clocks start at [now];
    [note_off] and [get_next_sample] keep the [start_time] of every voice
    they leave in the map. *)
Theorem voice_release_invariant (libm : Libm) :
  (forall sr, synth_inv (Synth.new sr)) /\
  (forall s n now, synth_inv s -> synth_inv (Synth.note_on libm s n now)) /\
  (forall s n now, synth_inv s -> synth_inv (Synth.note_off s n now)) /\
  (forall s now rng out s' l, synth_inv s ->
     Synth.get_next_sample libm s now rng = inr ((out, s'), l) -> synth_inv s') /\
  (forall s now, synth_inv s -> exists vs, Synth.retain (Synth.voices s) now = inr vs) /\
  (forall s n now k v', In (k, v') (Synth.voices (Synth.note_on libm s n now)) ->
     In (k, v') (Synth.voices s) \/
     (k = n /\ v' = Synth.fresh_voice libm s n now /\
      Envelope.start_time (Voice.envelope v') = Some now /\
      FrequencyEnvelope.start_time (Voice.frequency_envelope v') = Some now /\
      (hm_get (Synth.voices s) n = None \/
       exists v, hm_get (Synth.voices s) n = Some v /\
                 Envelope.is_released (Voice.envelope v) = true))) /\
  (forall s n now k v', In (k, v') (Synth.voices (Synth.note_off s n now)) ->
     exists v, In (k, v) (Synth.voices s) /\
       Envelope.start_time (Voice.envelope v') = Envelope.start_time (Voice.envelope v) /\
       FrequencyEnvelope.start_time (Voice.frequency_envelope v') =
         FrequencyEnvelope.start_time (Voice.frequency_envelope v)) /\
  (forall s now rng out s' l k v', Synth.get_next_sample libm s now rng = inr ((out, s'), l) ->
     In (k, v') (Synth.voices s') ->
     exists v, In (k, v) (Synth.voices s) /\
       Envelope.start_time (Voice.envelope v') = Envelope.start_time (Voice.envelope v) /\
       FrequencyEnvelope.start_time (Voice.frequency_envelope v') =
         FrequencyEnvelope.start_time (Voice.frequency_envelope v)).
Proof.
  split; [intros sr; constructor|].
  split.
  { intros s n now Hs. unfold Synth.note_on, synth_inv in *.
    destruct (hm_get (Synth.voices s) n) as [v|];
      [destruct (negb (Envelope.is_released (Voice.envelope v)))|]; auto;
      apply Forall_hm_insert; auto; apply fresh_voice_inv. }
  split.
  { intros s n now Hs. unfold Synth.note_off, synth_inv in *.
    destruct (hm_get (Synth.voices s) n) as [v|] eqn:E; auto.
    apply Forall_hm_insert; auto. simpl. apply release_voice_inv.
    apply hm_get_In in E. eapply Forall_forall in Hs; eauto. exact Hs. }
  split.
  { intros s now rng out s' l Hs H. unfold synth_inv in *.
    apply Forall_forall. intros [k v'] Hin.
    destruct (get_next_sample_voices _ _ _ _ _ _ _ H k v' Hin) as (v & Hv & He & Hf).
    eapply Forall_forall in Hs; [|exact Hv]. unfold voice_inv in *; simpl in *.
    rewrite He, Hf. exact Hs. }
  split.
  { intros s now Hs. apply retain_ok. exact Hs. }
  split.
  { intros s n now k v' Hin. unfold Synth.note_on in Hin.
    destruct (hm_get (Synth.voices s) n) as [v|] eqn:E.
    - destruct (Envelope.is_released (Voice.envelope v)) eqn:Er; simpl in Hin; auto.
      destruct (hm_insert_In _ _ _ _ _ Hin) as [H|H]; auto.
      inversion H; subst. right. repeat split; eauto.
    - simpl in Hin. destruct (hm_insert_In _ _ _ _ _ Hin) as [H|H]; auto.
      inversion H; subst. right. repeat split; auto. }
  split.
  { intros s n now k v' Hin. unfold Synth.note_off in Hin.
    destruct (hm_get (Synth.voices s) n) as [v|] eqn:E.
    - simpl in Hin. destruct (hm_insert_In _ _ _ _ _ Hin) as [H|H]; eauto.
      inversion H; subst. exists v. split; [apply hm_get_In; auto | auto].
    - eauto. }
  { intros s now rng out s' l k v' H Hin.
    destruct (get_next_sample_voices _ _ _ _ _ _ _ H k v' Hin) as (v & Hv & He & Hf).
    exists v. rewrite He, Hf. auto. }
Qed.

(** C2 (as amended). [Synth::get_next_sample] never divides the voice sum
    by zero: it divides only when the retained voice map is non-empty. The
    [Reverb] arm of [Effect::process] has no emptiness check: it divides
    [comb_output] by [comb_filters.len()] on every call and logs a division
    by zero exactly when its comb-filter set is empty. [process] keeps the
    number of comb filters of a [Reverb], and [Effect::new_reverb] builds
    exactly 4, so a reverb built by [new_reverb] never divides by zero
    there. *)
Theorem division_guards (libm : Libm) :
  (forall s now rng r, Synth.get_next_sample libm s now rng = inr r ->
     ~ In VoiceMean (snd r)) /\
  (forall p x sr out e' log,
     Effect.process libm (Effect.Reverb p) x sr = inr ((out, e'), log) ->
     log = (if Nat.eqb (length (ReverbParameters.comb_filters p)) 0 then [CombMean] else []) /\
     exists p', e' = Effect.Reverb p' /\
       length (ReverbParameters.comb_filters p') = length (ReverbParameters.comb_filters p)) /\
  (forall sr room_size mix, exists p, Effect.new_reverb sr room_size mix = Effect.Reverb p /\
     length (ReverbParameters.comb_filters p) = 4%nat).
Proof.
  split; [|split].
  - intros s now rng [a log] H.
    assert (Hl : logs (fun s => s <> VoiceMean) (Synth.get_next_sample libm s now rng)).
    { unfold Synth.get_next_sample.
      destruct (Synth.retain (Synth.voices s) now) as [p|vs]; [apply logs_fail|].
      apply logs_bind.
      - destruct vs as [|kv vs0]; [apply logs_ret|].
        apply logs_bind_dep; [apply sample_voices_logs|].
        intros [sum vs'] l Hs. apply logs_bind; [|intros; apply logs_ret].
        apply logs_fdiv_nz. rewrite (sample_voices_length _ _ _ _ _ _ _ _ _ Hs).
        apply inject_of_nat_S_nz.
      - intros [r vs']. apply logs_bind; [|intros [o fx]; apply logs_ret].
        unfold EffectStack.process.
        apply logs_bind; [apply process_effects_logs | intros [o fx]; apply logs_ret]. }
    specialize (Hl a log H). simpl. intros Hin.
    eapply Forall_forall in Hl; eauto.
  - intros p x sr out e' log H. unfold Effect.process in H. cbv zeta in H.
    apply bind_inr in H as ([[c combs] cpos] & l1 & l2 & Hc & H & ->).
    apply bind_inr in H as (c' & l3 & l4 & Hd & H & ->).
    apply bind_inr in H as ([[ao aps] apos] & l5 & l6 & Ha & H & ->).
    inversion H; subst.
    assert (l1 = []) as ->.
    { eapply logs_nil; [|exact Hc]. logs_tac. }
    assert (l5 = []) as ->.
    { eapply logs_nil; [|exact Ha]. logs_tac. }
    unfold fdiv in Hd. inversion Hd; subst. rewrite Qeq_bool_of_nat.
    split.
    + simpl. rewrite !app_nil_r. reflexivity.
    + eexists. split; [reflexivity|]. simpl.
      refine (mfor_preserve (fun st => length (snd (fst st)) =
                                       length (ReverbParameters.comb_filters p))
                _ _ _ _ _ _ _ Hc); [|reflexivity].
      intros i s s' l Hs Hst. exact (eq_trans (comb_step_length _ _ _ _ _ _ Hst) Hs).
  - intros sr room_size mix. eexists. split; reflexivity.
Qed.

(** C2, counterexample to the claim as stated: on a [Reverb] whose
    comb-filter set is empty, [process] divides by [comb_filters.len() = 0]
    (there is no emptiness check in the [Reverb] arm). *)
Lemma reverb_empty_combs_divides_by_zero :
  exists r, Effect.process libm_stub
              (Effect.Reverb {| ReverbParameters.comb_filters := [];
                                ReverbParameters.comb_positions := [];
                                ReverbParameters.allpass_filters := [];
                                ReverbParameters.allpass_positions := [];
                                ReverbParameters.feedback := 0.84;
                                ReverbParameters.mix := 0.5 |}) 1 44100 = inr r /\
            In CombMean (snd r).
Proof.
  eexists. split; [reflexivity|]. simpl. auto.
Qed.

(** C8. For a voice as [note_on] builds it (positive frequency, pitch bend
    and frequency-envelope targets, 16 harmonic phases) whose phase is not
    negative, and a positive sample rate, [Voice::get_sample] succeeds for
    every waveform, [Noise] and [Additive] included, and sets the phase to
    [(phase + 2 PI f / sample_rate) % (2 PI)], [f] the effective frequency
    [frequency * pitch_bend * multiplier]; the new phase lies in
    [[0, 2 PI)]. *)
Theorem phase_advances_and_wraps (libm : Libm) (v : Voice.t) (sr now rnd : Q)
    (Hsr : 0 < sr) (Hph : 0 <= Voice.phase v)
    (Hf : 0 < Voice.frequency v) (Hpb : 0 < Voice.pitch_bend v)
    (Hs : 0 < FrequencyEnvelope.start_freq (Voice.frequency_envelope v))
    (Hp : 0 < FrequencyEnvelope.peak_freq (Voice.frequency_envelope v))
    (Hsu : 0 < FrequencyEnvelope.sustain_freq (Voice.frequency_envelope v))
    (H16 : length (Voice.harmonic_phases v) = 16%nat) :
  let effective_frequency :=
    Voice.frequency v * Voice.pitch_bend v *
    FrequencyEnvelope.get_frequency_multiplier (Voice.frequency_envelope v) now in
  exists out v' l,
    Voice.get_sample libm v sr now rnd = inr ((out, v'), l) /\
    Voice.phase v' = fmod (Voice.phase v + effective_frequency * 2 * PI / sr) (2 * PI) /\
    0 <= Voice.phase v' /\ Voice.phase v' < 2 * PI.
Proof.
  intros ef.
  destruct (get_sample_ok libm v sr now rnd H16) as [[[out v'] l] H].
  exists out, v', l. split; [exact H|].
  pose proof (get_sample_phase _ _ _ _ _ _ _ _ H) as Hphase. split; [exact Hphase|].
  rewrite Hphase. apply fmod_range; [|unfold PI; lra].
  pose proof (multiplier_pos (Voice.frequency_envelope v) now Hs Hp Hsu) as Hm.
  set (m := FrequencyEnvelope.get_frequency_multiplier (Voice.frequency_envelope v) now) in *.
  assert (0 <= Voice.frequency v * Voice.pitch_bend v * m * 2 * PI / sr); [|lra].
  apply div_nonneg; auto. unfold PI.
  assert (0 < Voice.frequency v * Voice.pitch_bend v) by nra.
  assert (0 < Voice.frequency v * Voice.pitch_bend v * m) by nra. nra.
Qed.

(** C4. A [Delay] effect with [feedback = 0] and [mix = 1], started from its
    reset state (all-zero buffer, cursor 0; [new_delay] builds exactly that
    state) and run over any input [xs], outputs [0] for the first [L]
    samples, [L] the buffer length, and the input of [L] samples earlier
    from then on: the input is reproduced exactly, delayed by [L] samples
    (an input ending in zeros is followed by silence). *)
Theorem delay_pure_echo (libm : Libm) (p : DelayParameters.t) (xs : list Q) (sr : Q) :
  (forall sr' dt fb mix,
     Effect.reset (Effect.new_delay sr' dt fb mix) = Effect.new_delay sr' dt fb mix) /\
  ((0 < length (DelayParameters.buffer p))%nat ->
   DelayParameters.feedback p == 0 -> DelayParameters.mix p == 1 ->
   exists ys e' l,
     run_effect libm (Effect.reset (Effect.Delay p)) xs sr = inr ((ys, e'), l) /\
     length ys = length xs /\
     forall n, (n < length xs)%nat ->
       nth n ys 0 == (if Nat.ltb n (length (DelayParameters.buffer p)) then 0
                      else nth (n - length (DelayParameters.buffer p)) xs 0)).
Proof.
  split.
  - intros sr' dt fb mix. unfold Effect.new_delay, Effect.reset. simpl.
    rewrite zeros_repeat. reflexivity.
  - intros HL Hfb Hmix.
    set (p0 := {| DelayParameters.buffer := Effect.zeros (DelayParameters.buffer p);
                  DelayParameters.position := 0;
                  DelayParameters.delay_time := DelayParameters.delay_time p;
                  DelayParameters.feedback := DelayParameters.feedback p;
                  DelayParameters.mix := DelayParameters.mix p |}).
    assert (HL0 : length (DelayParameters.buffer p0) = length (DelayParameters.buffer p))
      by apply zeros_length.
    destruct (delay_run libm (fun i => nth i xs 0) sr (length xs) 0%nat p0)
      as (ys & e' & l & Hrun & Hlen & Hout).
    + rewrite HL0. exact HL.
    + simpl. symmetry. apply Nat.Div0.mod_0_l.
    + exact Hfb.
    + exact Hmix.
    + split; [reflexivity|]. intros d Hd. rewrite HL0 in Hd |- *. simpl.
      rewrite nth_zeros. replace (Nat.ltb d (length (DelayParameters.buffer p))) with true
        by (symmetry; apply Nat.ltb_lt; exact Hd). reflexivity.
    + exists ys, e', l. split; [|split; [exact Hlen|]].
      * rewrite map_nth_seq in Hrun. exact Hrun.
      * intros n Hn. rewrite HL0 in Hout. apply Hout. exact Hn.
Qed.


(** C3. Take a voice whose phase [p] is also its first harmonic phase (as
    for every voice [note_on] creates: both are 0), and whose fundamental
    [cf] is below Nyquist. As a [Sine] voice, [get_sample] outputs
    [sin p * amplitude]. As an [Additive 1 (w :: ws)] voice, it first
    advances the harmonic phase and then reads it, so it outputs
    [w * sin (fmod (p + step) (2 PI)) / sqrt 1 * amplitude], with [step]
    the phase step [cf * 2 PI / sample_rate]. With [w = 1] the additive
    voice therefore leads the sine voice by one whole phase step. *)
Theorem additive_one_harmonic_leads_sine (libm : Libm) (v : Voice.t) (w : Q) (ws : list Q)
    (p : Q) (hps : list Q) (sr now rnd : Q) :
  let cf := Voice.frequency v * Voice.pitch_bend v *
            FrequencyEnvelope.get_frequency_multiplier (Voice.frequency_envelope v) now in
  let amp := Envelope.get_amplitude (Voice.envelope v) now in
  Voice.phase v = p -> Voice.harmonic_phases v = p :: hps -> cf < sr / 2 ->
  (exists v1 l1, Voice.get_sample libm (with_waveform v Sine) sr now rnd =
                 inr ((sin libm p * amp, v1), l1)) /\
  (exists v2 l2, Voice.get_sample libm (with_waveform v (Additive 1 (w :: ws))) sr now rnd =
                 inr (((0 + w * sin libm (fmod (p + cf * 1 * 2 * PI / sr) (2 * PI)))
                        / sqrt libm 1 * amp, v2), l2)).
Proof.
  intros cf amp Hp Hh Hny.
  assert (Hq : qlt (cf * 1) (sr / 2) = true).
  { apply qlt_true. rewrite Qmult_1_r. exact Hny. }
  split.
  - eexists; eexists. unfold Voice.get_sample, with_waveform. simpl.
    rewrite Hp. reflexivity.
  - eexists; eexists. unfold Voice.get_sample, with_waveform. simpl.
    rewrite Hh. unfold Voice.harmonic_step. fold cf. change (inject_Z 1) with 1. rewrite Hq. simpl.
    fold amp. reflexivity.
Qed.


(** Witnesses of the hypotheses of C6 and C10 on the synth of [Synth::new]
    after [note_on(60)] at time 0 (and [note_off(60)] at time 1). *)
Lemma note_on_held_noop_witness :
  let s := Synth.note_on libm_stub (Synth.new 44100) 60%N 0 in
  Synth.note_on libm_stub s 60%N 1 = s.
Proof.
  intros s.
  apply (note_on_held_noop libm_stub s 60%N 1
           (Synth.fresh_voice libm_stub (Synth.new 44100) 60%N 0)); reflexivity.
Defined.

Lemma note_on_released_replaces_witness :
  let s := Synth.note_off (Synth.note_on libm_stub (Synth.new 44100) 60%N 0) 60%N 1 in
  hm_get (Synth.voices (Synth.note_on libm_stub s 60%N 2)) 60%N
    = Some (Synth.fresh_voice libm_stub s 60%N 2).
Proof.
  intros s.
  apply (note_on_released_replaces libm_stub s 60%N 2
           (Synth.release_voice (Synth.fresh_voice libm_stub (Synth.new 44100) 60%N 0) 1));
    reflexivity.
Defined.

(** Witness of C3: a fresh voice of note 60 at 44100 Hz, sampled at time 1
    (held at sustain), with a single harmonic of weight 1: the sine voice
    outputs 0, the additive one does not. *)
Lemma additive_one_harmonic_leads_sine_witness :
  let v := Synth.fresh_voice libm_stub (Synth.new 44100) 60%N 0 in
  exists y1 v1 l1 y2 v2 l2,
    Voice.get_sample libm_stub (with_waveform v Sine) 44100 1 0 = inr ((y1, v1), l1) /\
    Voice.get_sample libm_stub (with_waveform v (Additive 1 [1])) 44100 1 0 =
      inr ((y2, v2), l2) /\
    y1 == 0 /\ ~ y2 == 0.
Proof.
  intros v.
  pose proof (additive_one_harmonic_leads_sine libm_stub v 1 [] 0 (repeat 0 15) 44100 1 0
                eq_refl eq_refl) as T.
  destruct (T ltac:(vm_compute; reflexivity)) as [[v1 [l1 H1]] [v2 [l2 H2]]].
  do 3 eexists. do 3 eexists. split; [exact H1|]. split; [exact H2|]. split.
  - vm_compute. reflexivity.
  - intros E. vm_compute in E. discriminate E.
Defined.

(** Witness of C4: a two-sample delay line with a non-zero buffer, reset and
    run over [1; 2; 3; 0; 0]. *)
Lemma delay_pure_echo_witness :
  let p := {| DelayParameters.buffer := [5; 7]; DelayParameters.position := 1%nat;
              DelayParameters.delay_time := 0; DelayParameters.feedback := 0;
              DelayParameters.mix := 1 |} in
  let xs := [1; 2; 3; 0; 0] in
  exists ys e' l,
    run_effect libm_stub (Effect.reset (Effect.Delay p)) xs 44100 = inr ((ys, e'), l) /\
    length ys = length xs /\
    forall n, (n < length xs)%nat ->
      nth n ys 0 == (if Nat.ltb n (length (DelayParameters.buffer p)) then 0
                     else nth (n - length (DelayParameters.buffer p)) xs 0).
Proof.
  intros p xs.
  apply (proj2 (delay_pure_echo libm_stub p xs 44100)).
  - simpl. lia.
  - vm_compute. reflexivity.
  - vm_compute. reflexivity.
Defined.

(** Witness of C5: the synth of [Synth::new] after [note_on(60)] satisfies
    the invariant, and its [retain] does not panic. *)
Lemma voice_release_invariant_witness :
  let s := Synth.note_on libm_stub (Synth.new 44100) 60%N 0 in
  synth_inv s /\ exists vs, Synth.retain (Synth.voices s) 1 = inr vs.
Proof.
  intros s.
  destruct (voice_release_invariant libm_stub) as (Hnew & Hon & _ & _ & Hret & _).
  assert (Hs : synth_inv s) by (apply Hon, Hnew).
  split; [exact Hs|]. apply Hret. exact Hs.
Defined.

(** Witness of C8: a fresh voice of note 60 at 44100 Hz, sampled at time 1. *)
Lemma phase_advances_and_wraps_witness :
  let v := Synth.fresh_voice libm_stub (Synth.new 44100) 60%N 0 in
  let effective_frequency :=
    Voice.frequency v * Voice.pitch_bend v *
    FrequencyEnvelope.get_frequency_multiplier (Voice.frequency_envelope v) 1 in
  exists out v' l,
    Voice.get_sample libm_stub v 44100 1 0 = inr ((out, v'), l) /\
    Voice.phase v' = fmod (Voice.phase v + effective_frequency * 2 * PI / 44100) (2 * PI) /\
    0 <= Voice.phase v' /\ Voice.phase v' < 2 * PI.
Proof.
  intros v.
  apply (phase_advances_and_wraps libm_stub v 44100 1 0);
    try (vm_compute; reflexivity); vm_compute; discriminate.
Defined.

(** * Further properties of the code *)

(** ** Running the per-sample monad forward *)

Lemma ok_ret {A} (P : A -> Prop) x : P x -> ok P (ret x).
Proof. intros H. exists x, []. auto. Qed.

Lemma ok_bind {A B} (Q : A -> Prop) (P : B -> Prop) (m : M A) (f : A -> M B) :
  ok Q m -> (forall a, Q a -> ok P (f a)) -> ok P (bind m f).
Proof.
  intros (a & l1 & Hm & Ha) Hf. destruct (Hf a Ha) as (b & l2 & Hb & HP).
  exists b, (l1 ++ l2). unfold bind. rewrite Hm, Hb. auto.
Qed.

Lemma ok_bind_get {A B} (P : B -> Prop) (xs : list A) i d (f : A -> M B) :
  (i < length xs)%nat -> ok P (f (nth i xs d)) -> ok P (bind (get xs i) f).
Proof.
  intros Hi H. apply (ok_bind (fun y => y = nth i xs d)); [|intros a ->; exact H].
  unfold get. destruct (nth_error xs i) eqn:E; [|apply nth_error_None in E; lia].
  apply ok_ret. symmetry. apply nth_error_nth. exact E.
Qed.

Lemma ok_bind_set {A B} (P : B -> Prop) (xs : list A) i x (f : list A -> M B) :
  (i < length xs)%nat ->
  (forall xs', length xs' = length xs ->
     (forall j d, nth j xs' d = if Nat.eqb j i then x else nth j xs d) -> ok P (f xs')) ->
  ok P (bind (set xs i x) f).
Proof.
  intros Hi H. destruct (set_nth_ok xs i x Hi) as [xs' E].
  apply (ok_bind (fun ys => ys = xs')).
  - unfold set. rewrite E. apply ok_ret. reflexivity.
  - intros a ->. apply H; [eapply set_nth_length; eauto|].
    intros j d. eapply nth_set_nth; eauto.
Qed.

Lemma ok_bind_rem {B} (P : B -> Prop) a b (f : nat -> M B) :
  b <> 0%nat -> ok P (f (Nat.modulo a b)) -> ok P (bind (rem_usize a b) f).
Proof.
  intros Hb H. apply (ok_bind (fun r => r = Nat.modulo a b)); [|intros ? ->; exact H].
  unfold rem_usize. destruct (Nat.eqb_spec b 0); [lia|]. apply ok_ret. reflexivity.
Qed.

Lemma ok_bind_sub {B} (P : B -> Prop) a b (f : nat -> M B) :
  (b <= a)%nat -> ok P (f (a - b)%nat) -> ok P (bind (sub_usize a b) f).
Proof.
  intros Hb H. apply (ok_bind (fun r => r = (a - b)%nat)); [|intros ? ->; exact H].
  unfold sub_usize. destruct (Nat.ltb_spec a b); [lia|]. apply ok_ret. reflexivity.
Qed.

Lemma ok_bind_fdiv {B} (P : B -> Prop) s a b (f : Q -> M B) :
  ok P (f (a / b)) -> ok P (bind (fdiv s a b) f).
Proof.
  intros H. apply (ok_bind (fun r => r = a / b)); [|intros ? ->; exact H].
  exists (a / b), (if Qeq_bool b 0 then [s] else []). auto.
Qed.

Lemma ok_mfor {I S} (Inv : S -> Prop) (idx : list I) (body : I -> S -> M S) :
  (forall i s, In i idx -> Inv s -> ok Inv (body i s)) ->
  forall s, Inv s -> ok Inv (mfor idx body s).
Proof.
  intros Hb s Hs. destruct (mfor_ok Inv idx body Hb s Hs) as (s' & l & H & HI).
  exists s', l. auto.
Qed.

Lemma ok_weaken {A} (P Q : A -> Prop) (m : M A) :
  (forall a, P a -> Q a) -> ok P m -> ok Q m.
Proof. intros H (a & l & Hm & Ha). exists a, l. auto. Qed.

(** [(x * m) as usize <= m] for [x] in [[0, 1]]. *)
Lemma f32_as_usize_scale x m :
  0 <= x <= 1 -> (f32_as_usize (x * inject_Z (Z.of_nat m)) <= m)%nat.
Proof.
  intros Hx. unfold f32_as_usize, qtrunc.
  assert (Hm : 0 <= inject_Z (Z.of_nat m)).
  { change 0 with (inject_Z 0). rewrite <- Zle_Qle. lia. }
  assert (H0 : 0 <= x * inject_Z (Z.of_nat m)) by nra.
  apply Qle_bool_iff in H0. rewrite H0. apply Qle_bool_iff in H0.
  pose proof (Qfloor_le (x * inject_Z (Z.of_nat m))) as Hf.
  assert (Hle : inject_Z (Qfloor (x * inject_Z (Z.of_nat m))) <= inject_Z (Z.of_nat m)) by nra.
  rewrite <- Zle_Qle in Hle. lia.
Qed.

Lemma rings_ok_update (bufs : list (list Q)) (poss : list nat) i buf' pos'
    (bufs' : list (list Q)) (poss' : list nat) :
  rings_ok bufs poss ->
  length bufs' = length bufs -> length poss' = length poss ->
  (forall j d, nth j bufs' d = if Nat.eqb j i then buf' else nth j bufs d) ->
  (forall j d, nth j poss' d = if Nat.eqb j i then pos' else nth j poss d) ->
  (pos' < length buf')%nat -> rings_ok bufs' poss'.
Proof.
  intros [Hl Hr] Hb Hp Hnb Hnp Hlt. split; [lia|].
  intros j Hj. rewrite Hnb, Hnp. destruct (Nat.eqb j i); auto. apply Hr. lia.
Qed.

(** ** The effects never panic on well-formed buffers *)

Lemma comb_step_ok sample fb i acc combs cpos :
  rings_ok combs cpos -> (i < length combs)%nat ->
  ok (fun '(_, combs', cpos') => rings_ok combs' cpos' /\ length combs' = length combs)
     (Effect.comb_step sample fb i (acc, combs, cpos)).
Proof.
  intros Hr Hi. pose proof Hr as [Hl Hr']. unfold Effect.comb_step.
  apply ok_bind_get with (d := []); [exact Hi|].
  apply ok_bind_get with (d := 0%nat); [lia|].
  pose proof (Hr' i Hi) as Hpos.
  apply ok_bind_get with (d := 0); [exact Hpos|].
  apply ok_bind_set; [exact Hpos|]. intros buf' Hlb Hnb.
  apply ok_bind_set; [exact Hi|]. intros combs' Hlc Hnc.
  apply ok_bind_rem; [lia|].
  apply ok_bind_set; [lia|]. intros cpos' Hlp Hnp.
  apply ok_ret. split; [|exact Hlc].
  eapply rings_ok_update; eauto. apply Nat.mod_upper_bound. lia.
Qed.

Lemma allpass_step_ok i acc aps apos :
  rings_ok aps apos -> (i < length aps)%nat ->
  ok (fun '(_, aps', apos') => rings_ok aps' apos' /\ length aps' = length aps)
     (Effect.allpass_step i (acc, aps, apos)).
Proof.
  intros Hr Hi. pose proof Hr as [Hl Hr']. unfold Effect.allpass_step.
  apply ok_bind_get with (d := []); [exact Hi|].
  apply ok_bind_get with (d := 0%nat); [lia|].
  pose proof (Hr' i Hi) as Hpos.
  apply ok_bind_get with (d := 0); [exact Hpos|].
  apply ok_bind_set; [exact Hpos|]. intros buf' Hlb Hnb.
  apply ok_bind_set; [exact Hi|]. intros aps' Hla Hna.
  apply ok_bind_rem; [lia|].
  apply ok_bind_set; [lia|]. intros apos' Hlp Hnp.
  apply ok_ret. split; [|exact Hla].
  eapply rings_ok_update; eauto. apply Nat.mod_upper_bound. lia.
Qed.

Lemma chorus_step_ok libm sample sr p i out bufs poss phs :
  (forall y, -1 <= sin libm y <= 1) ->
  (i < length bufs)%nat -> rings_ok bufs poss -> length phs = length bufs ->
  length (ChorusParameters.rates p) = length bufs ->
  length (ChorusParameters.depths p) = length bufs ->
  0 <= nth i (ChorusParameters.depths p) 0 <= 1 ->
  ok (fun '(_, bufs', poss', phs') =>
        rings_ok bufs' poss' /\ length bufs' = length bufs /\ length phs' = length bufs)
     (Effect.chorus_step libm sample sr p i (out, bufs, poss, phs)).
Proof.
  intros Hsin Hi Hr Hph Hra Hde Hd. pose proof Hr as [Hl Hr'].
  unfold Effect.chorus_step. cbv zeta.
  apply ok_bind_get with (d := 0); [lia|].
  apply ok_bind_get with (d := 0); [lia|].
  apply ok_bind_fdiv.
  apply ok_bind_set; [lia|]. intros phs' Hlph _.
  apply ok_bind_get with (d := 0); [lia|].
  apply ok_bind_get with (d := 0); [lia|].
  apply ok_bind_get with (d := []); [exact Hi|].
  pose proof (Hr' i Hi) as Hpos.
  set (buf := nth i bufs []) in *. set (pos := nth i poss 0%nat) in *.
  apply ok_bind_sub; [lia|].
  match goal with |- context [f32_as_usize ?x] => set (ds := f32_as_usize x) end.
  assert (Hds : (ds <= length buf - 1)%nat).
  { apply f32_as_usize_scale.
    match goal with |- context [sin libm ?y] => pose proof (Hsin y) end. nra. }
  apply ok_bind_get with (d := 0%nat); [lia|]. fold pos.
  apply ok_bind_sub; [lia|].
  apply ok_bind_rem; [lia|].
  apply ok_bind_get with (d := 0); [apply Nat.mod_upper_bound; lia|].
  apply ok_bind_set; [exact Hpos|]. intros buf' Hlb Hnb.
  apply ok_bind_set; [exact Hi|]. intros bufs' Hlbs Hnbs.
  apply ok_bind_rem; [lia|].
  apply ok_bind_set; [lia|]. intros poss' Hlp Hnp.
  apply ok_ret. split; [|split; lia].
  eapply rings_ok_update; eauto. apply Nat.mod_upper_bound. lia.
Qed.

Lemma process_wf libm e x sr :
  (forall y, -1 <= sin libm y <= 1) -> effect_wf e ->
  ok (fun '(_, e') => effect_wf e') (Effect.process libm e x sr).
Proof.
  intros Hsin Hwf. destruct e as [p|drive mix|p|p|p|p|p]; simpl in Hwf; unfold Effect.process.
  - apply ok_bind_get with (d := 0); [exact Hwf|].
    apply ok_bind_set; [exact Hwf|]. intros buf' Hlb _.
    apply ok_bind_rem; [lia|]. apply ok_ret. simpl. apply Nat.mod_upper_bound. lia.
  - apply ok_ret. exact I.
  - apply ok_bind_fdiv. apply ok_bind_fdiv. apply ok_ret. exact I.
  - apply ok_bind_fdiv. apply ok_ret. exact I.
  - destruct Hwf as (Hr & Hra & Hde & Hph & Hd).
    set (n := length (ChorusParameters.buffers p)) in *.
    apply (ok_bind (fun '(_, bufs, poss, phs) =>
                      rings_ok bufs poss /\ length bufs = n /\ length phs = n)).
    + apply ok_mfor; [|split; [exact Hr|split; [reflexivity|exact Hph]]].
      intros i [[[o bufs] poss] phs] Hin (Hr1 & Hl1 & Hp1). apply in_seq in Hin.
      eapply ok_weaken; [|apply chorus_step_ok; auto; try lia].
      * intros [[[o' bufs'] poss'] phs'] (H1 & H2 & H3). split; [exact H1|split; lia].
      * apply Hd. lia.
    + intros [[[o bufs] poss] phs] (Hr1 & Hl1 & Hp1). apply ok_bind_fdiv. apply ok_ret.
      simpl. split; [exact Hr1|]. split; [lia|]. split; [lia|]. split; [lia|].
      intros i Hi. apply Hd. lia.
  - destruct Hwf as [Hc Ha].
    apply (ok_bind (fun '(_, combs, cpos) => rings_ok combs cpos)).
    + eapply ok_weaken; [|apply ok_mfor with
        (Inv := fun '(_, combs, cpos) =>
                  rings_ok combs cpos /\
                  length combs = length (ReverbParameters.comb_filters p))].
      * intros [[? ?] ?] [H _]. exact H.
      * intros i [[o combs] cpos] Hin [Hr1 Hl1]. apply in_seq in Hin.
        eapply ok_weaken; [|apply comb_step_ok; auto; lia].
        intros [[? ?] ?] [H1 H2]. split; auto; lia.
      * split; [exact Hc|reflexivity].
    + intros [[o combs] cpos] Hc'. apply ok_bind_fdiv.
      apply (ok_bind (fun '(_, aps, apos) => rings_ok aps apos)).
      * eapply ok_weaken; [|apply ok_mfor with
          (Inv := fun '(_, aps, apos) =>
                    rings_ok aps apos /\
                    length aps = length (ReverbParameters.allpass_filters p))].
        -- intros [[? ?] ?] [H _]. exact H.
        -- intros i [[o' aps] apos] Hin [Hr1 Hl1]. apply in_seq in Hin.
           eapply ok_weaken; [|apply allpass_step_ok; auto; lia].
           intros [[? ?] ?] [H1 H2]. split; auto; lia.
        -- split; [exact Ha|reflexivity].
      * intros [[o' aps] apos] Ha'. apply ok_ret. simpl. auto.
  - apply ok_bind_fdiv. apply ok_ret. exact I.
Qed.

Lemma process_effects_wf libm effs x sr :
  (forall y, -1 <= sin libm y <= 1) -> Forall effect_wf effs ->
  ok (fun '(_, effs') => Forall effect_wf effs') (EffectStack.process_effects libm effs x sr).
Proof.
  intros Hsin. revert x. induction effs as [|e effs IH]; intros x Hwf; simpl.
  - apply ok_ret. constructor.
  - inversion Hwf as [|? ? He Hes]; subst.
    apply (ok_bind (fun '(_, e') => effect_wf e')); [apply process_wf; auto|].
    intros [y e'] He'.
    apply (ok_bind (fun '(_, es') => Forall effect_wf es')); [apply IH; auto|].
    intros [z es'] Hes'. apply ok_ret. constructor; auto.
Qed.

Lemma stack_process_wf libm fx x sr :
  (forall y, -1 <= sin libm y <= 1) -> stack_wf fx ->
  ok (fun '(_, fx') => stack_wf fx') (EffectStack.process libm fx x sr).
Proof.
  intros Hsin Hwf. unfold EffectStack.process.
  apply (ok_bind (fun '(_, effs') => Forall effect_wf effs'));
    [apply process_effects_wf; auto|].
  intros [y effs'] H. apply ok_ret. exact H.
Qed.

(** ** Voices keep their 16 harmonic phases *)

Lemma harmonic_step_length libm cf sr hw st st' l :
  Voice.harmonic_step libm cf sr hw st = inr (st', l) -> length (snd st') = length (snd st).
Proof.
  destruct hw as [h w]. destruct st as [sum hps]. unfold Voice.harmonic_step.
  destruct (qlt _ _); intros H; [|inversion H; reflexivity].
  apply bind_inr in H as (step & l1 & l2 & _ & H & _).
  apply bind_inr in H as (hp & l3 & l4 & _ & H & _).
  apply bind_inr in H as (hps' & l5 & l6 & Hs & H & _).
  apply bind_inr in H as (hp' & l7 & l8 & _ & H & _).
  inversion H; subst. simpl. eapply set_length; eauto.
Qed.

Lemma get_sample_hps libm v sr now rnd x v' l :
  Voice.get_sample libm v sr now rnd = inr ((x, v'), l) ->
  length (Voice.harmonic_phases v') = length (Voice.harmonic_phases v).
Proof.
  unfold Voice.get_sample. intros H.
  apply bind_inr in H as (step & l1 & l2 & _ & H & _).
  apply bind_inr in H as ([smp hps] & l3 & l4 & Hw & H & _).
  inversion H; subst. simpl.
  destruct (Voice.waveform v) as [| | | | |n ws]; try (inversion Hw; reflexivity).
  apply bind_inr in Hw as ([sum hps'] & l5 & l6 & Hm & Hw & _).
  apply bind_inr in Hw as (r & l7 & l8 & _ & Hw & _). inversion Hw; subst.
  apply (mfor_preserve (fun st : Q * list Q => length (snd st) = length (Voice.harmonic_phases v))
           _ _) in Hm; [exact Hm| |reflexivity].
  intros i st st' l' Hst Hb. apply harmonic_step_length in Hb. lia.
Qed.

Lemma get_sample_voice_ok libm v sr now rnd :
  voice_ok v -> ok (fun '(_, v') => voice_ok v') (Voice.get_sample libm v sr now rnd).
Proof.
  intros [Hinv H16]. destruct (get_sample_ok libm v sr now rnd H16) as [[[x v'] l] H].
  exists (x, v'), l. split; [exact H|]. split.
  - destruct (get_sample_envelopes _ _ _ _ _ _ _ _ H) as [He Hf].
    unfold voice_inv in *. rewrite He, Hf. exact Hinv.
  - rewrite (get_sample_hps _ _ _ _ _ _ _ _ H). exact H16.
Qed.

Lemma sample_voices_ok libm vs sr now rng i :
  Forall (fun kv => voice_ok (snd kv)) vs ->
  ok (fun '(_, vs') => Forall (fun kv => voice_ok (snd kv)) vs' /\ map fst vs' = map fst vs)
     (Synth.sample_voices libm vs sr now rng i).
Proof.
  revert i. induction vs as [|[k v] vs IH]; intros i Hvs; simpl.
  - apply ok_ret. auto.
  - inversion Hvs as [|? ? Hv Hvs']; subst.
    apply (ok_bind (fun '(_, v') => voice_ok v')); [apply get_sample_voice_ok; auto|].
    intros [x v'] Hv'.
    apply (ok_bind (fun '(_, vs') => Forall (fun kv => voice_ok (snd kv)) vs' /\
                                     map fst vs' = map fst vs)); [apply IH; auto|].
    intros [sum vs'] [H1 H2]. apply ok_ret. simpl. split; [constructor; auto|congruence].
Qed.

Lemma get_next_sample_ok libm s now rng :
  (forall y, -1 <= sin libm y <= 1) -> synth_ok s ->
  ok (fun '(_, s') => synth_ok s') (Synth.get_next_sample libm s now rng).
Proof.
  intros Hsin (Hv & Hfx & Hsr). unfold Synth.get_next_sample.
  assert (Hinv : Forall (fun kv => voice_inv (snd kv)) (Synth.voices s)).
  { eapply Forall_impl; [|exact Hv]. intros kv [H _]. exact H. }
  destruct (retain_ok _ now Hinv) as [vs Er]. rewrite Er.
  assert (Hvs : Forall (fun kv => voice_ok (snd kv)) vs).
  { apply Forall_forall. intros kv Hin.
    exact (proj1 (Forall_forall _ _) Hv kv (retain_In _ _ _ Er kv Hin)). }
  apply (ok_bind (fun '(_, vs') => Forall (fun kv => voice_ok (snd kv)) vs')).
  - destruct vs as [|kv vs0]; [apply ok_ret; constructor|].
    apply (ok_bind (fun '(_, vs') => Forall (fun kv => voice_ok (snd kv)) vs' /\
                                     map fst vs' = map fst (kv :: vs0)));
      [apply sample_voices_ok; auto|].
    intros [sum vs'] [H _]. apply ok_bind_fdiv. apply ok_ret. exact H.
  - intros [r vs'] Hvs'.
    apply (ok_bind (fun '(_, fx') => stack_wf fx')); [apply stack_process_wf; auto|].
    intros [o fx'] Hfx'. apply ok_ret. split; [exact Hvs'|split; [exact Hfx'|exact Hsr]].
Qed.

(** ** The constructors and the panel build well-formed effects *)

Lemma f32_as_usize_ge1 x : 1 <= x -> (1 <= f32_as_usize x)%nat.
Proof.
  intros Hx. unfold f32_as_usize, qtrunc.
  assert (H0 : 0 <= x) by lra. apply Qle_bool_iff in H0. rewrite H0.
  assert (Hf : (1 <= Qfloor x)%Z).
  { change 1%Z with (Qfloor 1). apply Qfloor_resp_le. exact Hx. }
  lia.
Qed.

Lemma nth_repeat_lt {A} (a d : A) n i : (i < n)%nat -> nth i (repeat a n) d = a.
Proof.
  revert i. induction n as [|n IH]; intros [|i] Hi; simpl; try lia; auto.
  apply IH. lia.
Qed.

Lemma new_chorus_wf sr voices mix :
  (voices = 0%nat \/ 1 <= sr * 0.030) -> effect_wf (Effect.new_chorus sr voices mix).
Proof.
  intros Hv. simpl. unfold rings_ok.
  rewrite !repeat_length, length_map, length_seq.
  split; [split; [reflexivity|]|].
  - intros i Hi. rewrite nth_repeat_lt by lia. rewrite nth_repeat_lt by lia.
    rewrite repeat_length. destruct Hv as [->|Hv]; [lia|].
    apply f32_as_usize_ge1 in Hv. lia.
  - split; [reflexivity|]. split; [reflexivity|]. split; [reflexivity|].
    intros i Hi. rewrite nth_repeat_lt by lia. lra.
Qed.

Lemma new_reverb_wf sr room mix :
  1 <= sr * (0.0297 * room) -> 1 <= sr * 0.0017 ->
  effect_wf (Effect.new_reverb sr room mix).
Proof.
  intros Hc Ha.
  assert (Hpos : 0 < sr * room) by nra.
  assert (H2 : 1 <= sr * (0.0371 * room)) by nra.
  assert (H3 : 1 <= sr * (0.0411 * room)) by nra.
  assert (H4 : 1 <= sr * (0.0437 * room)) by nra.
  assert (H5 : 1 <= sr * 0.0050) by nra.
  apply f32_as_usize_ge1 in Hc, Ha, H2, H3, H4, H5.
  simpl. split; split; try reflexivity; intros i Hi; simpl in Hi;
    do 4 (destruct i as [|i]; [simpl in *; try rewrite repeat_length; lia|]); simpl in Hi; lia.
Qed.

Lemma press_wf s b :
  stack_wf (Synth.effects s) -> 1 <= Synth.sample_rate s * 0.0017 ->
  stack_wf (Synth.effects (SynthApp.press s b)) /\
  Synth.voices (SynthApp.press s b) = Synth.voices s /\
  Synth.sample_rate (SynthApp.press s b) = Synth.sample_rate s.
Proof.
  intros Hfx Hsr. unfold stack_wf in *.
  destruct b; simpl; (split; [|split; reflexivity]).
  all: try (apply Forall_app; split; [exact Hfx|apply Forall_cons; [|apply Forall_nil]]).
  all: try exact I.
  - simpl. rewrite repeat_length. lia.
  - apply new_chorus_wf. right. lra.
  - apply new_reverb_wf; lra.
  - apply Forall_nil.
Qed.

Lemma panel_effect_wf sr e : effect_wf e -> effect_wf (SynthApp.panel_effect sr e).
Proof.
  destruct e; simpl; auto. unfold SynthApp.resize_delay.
  destruct (negb _); simpl; auto. intros _. rewrite repeat_length. lia.
Qed.

Lemma effect_frame_ok s clicks : synth_ok s -> synth_ok (SynthApp.effect_frame s clicks).
Proof.
  intros H. unfold SynthApp.effect_frame.
  assert (Hf : synth_ok (fold_left SynthApp.press clicks s)).
  { revert s H. induction clicks as [|b clicks IH]; intros s (Hv & Hfx & Hsr); simpl;
      [split; auto|].
    apply IH. destruct (press_wf s b Hfx Hsr) as (H1 & H2 & H3).
    split; [rewrite H2; exact Hv|]. split; [exact H1|]. rewrite H3. exact Hsr. }
  destruct Hf as (Hv & Hfx & Hsr). split; [exact Hv|]. split; [|exact Hsr].
  unfold stack_wf in *. simpl. apply Forall_map.
  eapply Forall_impl; [|exact Hfx]. intros e. apply panel_effect_wf.
Qed.

(** ** Notes keep the synth well-formed *)

Lemma note_on_ok libm s n now : synth_ok s -> synth_ok (Synth.note_on libm s n now).
Proof.
  intros (Hv & Hfx & Hsr). unfold Synth.note_on.
  assert (Hins : synth_ok (Synth.set_voices s
                   (hm_insert (Synth.voices s) n (Synth.fresh_voice libm s n now)))).
  { split; [|split; [exact Hfx|exact Hsr]]. simpl.
    apply Forall_hm_insert; [exact Hv|]. split; [apply fresh_voice_inv|reflexivity]. }
  destruct (hm_get (Synth.voices s) n) as [v|]; [|exact Hins].
  destruct (negb _); [split; auto|exact Hins].
Qed.

Lemma note_off_ok s n now : synth_ok s -> synth_ok (Synth.note_off s n now).
Proof.
  intros (Hv & Hfx & Hsr). unfold Synth.note_off.
  destruct (hm_get (Synth.voices s) n) as [v|] eqn:E; [|split; auto].
  split; [|split; [exact Hfx|exact Hsr]]. simpl.
  apply Forall_hm_insert; [exact Hv|].
  apply hm_get_In in E. destruct (proj1 (Forall_forall _ _) Hv _ E) as [Hi H16].
  split; [apply release_voice_inv; exact Hi|exact H16].
Qed.

Lemma fill_ok libm s slots :
  (forall y, -1 <= sin libm y <= 1) -> synth_ok s ->
  ok (fun '(out, s') => length out = length slots /\ synth_ok s') (SynthApp.fill libm s slots).
Proof.
  intros Hsin. revert s. induction slots as [|[now rng] slots IH]; intros s Hs; simpl.
  - apply ok_ret. auto.
  - apply (ok_bind (fun '(_, s') => synth_ok s')); [apply get_next_sample_ok; auto|].
    intros [x s1] Hs1.
    apply (ok_bind (fun '(out, s') => length out = length slots /\ synth_ok s'));
      [apply IH; auto|].
    intros [xs s2] [Hl Hs2]. apply ok_ret. simpl. auto.
Qed.

Lemma libm_clamp_sin y : -1 <= sin libm_clamp y <= 1.
Proof.
  simpl. destruct (Qle_bool y (-1)) eqn:E1; [lra|].
  destruct (Qle_bool 1 y) eqn:E2; [lra|].
  apply qle_false in E1, E2. lra.
Qed.

Lemma new_synth_ok sr : 1 <= sr * 0.0017 -> synth_ok (Synth.new sr).
Proof. intros H. split; [constructor|]. split; [constructor|exact H]. Qed.

(** * Safety of the audio callback *)

(** The audio thread never panics. When [sin] stays in [-1, 1] and the
    sample rate is at least 1/0.0017 (so that every reverb line has a
    sample), the synth built by [Synth::new], changed by any sequence of
    [note_on], [note_off] and effect-panel frames (buttons clicked, then the
    delay resize; sliders left where they are), renders any number of
    samples in the output callback without a panic, one sample per slot. *)
Theorem audio_callback_never_panics (libm : Libm) (sr : Q) :
  (forall y, -1 <= sin libm y <= 1) -> 1 <= sr * 0.0017 ->
  synth_ok (Synth.new sr) /\
  (forall s n now, synth_ok s -> synth_ok (Synth.note_on libm s n now)) /\
  (forall s n now, synth_ok s -> synth_ok (Synth.note_off s n now)) /\
  (forall s clicks, synth_ok s -> synth_ok (SynthApp.effect_frame s clicks)) /\
  (forall s slots, synth_ok s ->
     exists out s' logs, SynthApp.fill libm s slots = inr ((out, s'), logs) /\
                         length out = length slots /\ synth_ok s').
Proof.
  intros Hsin Hsr. split; [apply new_synth_ok; exact Hsr|].
  split; [intros; apply note_on_ok; auto|].
  split; [intros; apply note_off_ok; auto|].
  split; [intros; apply effect_frame_ok; auto|].
  intros s slots Hs. destruct (fill_ok libm s slots Hsin Hs) as ([out s'] & l & E & Hl & Hs').
  exists out, s', l. auto.
Qed.

Lemma audio_callback_never_panics_witness :
  exists out s' logs,
    SynthApp.fill libm_clamp
      (SynthApp.effect_frame
         (Synth.note_on libm_clamp (Synth.new 44100) 60%N 0)
         [SynthApp.AddReverb; SynthApp.AddChorus; SynthApp.AddDelay])
      [(0, fun _ => 0); (1, fun _ => 0)] = inr ((out, s'), logs) /\
    length out = 2%nat.
Proof.
  assert (Hsr : 1 <= 44100 * 0.0017) by (vm_compute; intros H; discriminate H).
  destruct (audio_callback_never_panics libm_clamp 44100 libm_clamp_sin Hsr)
    as (H0 & Hon & _ & Hfr & Hfill).
  destruct (Hfill _ [(0, fun _ => 0); (1, fun _ => 0)]
              (Hfr _ [SynthApp.AddReverb; SynthApp.AddChorus; SynthApp.AddDelay]
                 (Hon _ 60%N 0 H0))) as (out & s' & l & E & Hl & _).
  exists out, s', l. split; [exact E|exact Hl].
Defined.

(** ** Running forward to a panic *)

Lemma ior_bind {A B} (E : panic) (P : A -> Prop) (R : B -> Prop) (m : M A) (f : A -> M B) :
  (m = inl E \/ ok P m) -> (forall a, P a -> f a = inl E \/ ok R (f a)) ->
  bind m f = inl E \/ ok R (bind m f).
Proof.
  intros [-> | (a & l1 & -> & Ha)] Hf; [left; reflexivity|].
  simpl. destruct (Hf a Ha) as [-> | (b & l2 & -> & Hb)]; [left; reflexivity|].
  right. exists b, (l1 ++ l2). auto.
Qed.

Lemma ior_bind_fail {A B} (E : panic) (P : A -> Prop) (m : M A) (f : A -> M B) :
  (m = inl E \/ ok P m) -> (forall a, P a -> f a = inl E) -> bind m f = inl E.
Proof.
  intros [-> | (a & l1 & -> & Ha)] Hf; [reflexivity|]. simpl. rewrite (Hf a Ha). reflexivity.
Qed.

Lemma ior_bind_get {A B} (P : B -> Prop) (xs : list A) i d (f : A -> M B) :
  ((i < length xs)%nat -> f (nth i xs d) = inl IndexOutOfBounds \/ ok P (f (nth i xs d))) ->
  bind (get xs i) f = inl IndexOutOfBounds \/ ok P (bind (get xs i) f).
Proof.
  intros H. apply (ior_bind _ (fun y => (i < length xs)%nat /\ y = nth i xs d)).
  - unfold get. destruct (nth_error xs i) eqn:E; [right|left; reflexivity].
    apply ok_ret. split.
    + apply nth_error_Some. rewrite E. discriminate.
    + symmetry. apply nth_error_nth. exact E.
  - intros a [Hi ->]. apply H. exact Hi.
Qed.

Lemma ior_mfor {I S} (E : panic) (Inv : S -> Prop) (idx : list I) (body : I -> S -> M S) :
  (forall i s, Inv s -> body i s = inl E \/ ok Inv (body i s)) ->
  forall s, Inv s -> mfor idx body s = inl E \/ ok Inv (mfor idx body s).
Proof.
  intros Hb. induction idx as [|i idx IH]; intros s Hs; simpl.
  - right. apply ok_ret. exact Hs.
  - apply (ior_bind E Inv); [apply Hb; exact Hs|]. intros a Ha. apply IH. exact Ha.
Qed.

Lemma comb_step_ior sample fb i st :
  Effect.comb_step sample fb i st = inl IndexOutOfBounds \/
  ok (fun _ => True) (Effect.comb_step sample fb i st).
Proof.
  destruct st as [[acc combs] cpos]. unfold Effect.comb_step.
  apply ior_bind_get with (d := []). intros Hi.
  apply ior_bind_get with (d := 0%nat). intros Hp.
  apply ior_bind_get with (d := 0). intros Hq. right.
  apply ok_bind_set; [exact Hq|]. intros buf' Hlb _.
  apply ok_bind_set; [exact Hi|]. intros combs' _ _.
  apply ok_bind_rem; [lia|].
  apply ok_bind_set; [exact Hp|]. intros cpos' _ _.
  apply ok_ret. exact I.
Qed.

Lemma allpass_step_keeps_other i j st :
  i <> j ->
  Effect.allpass_step i st = inl IndexOutOfBounds \/
  ok (fun '(_, aps', _) => nth j aps' [] = nth j (snd (fst st)) [])
     (Effect.allpass_step i st).
Proof.
  intros Hij. destruct st as [[acc aps] apos]. unfold Effect.allpass_step.
  apply ior_bind_get with (d := []). intros Hi.
  apply ior_bind_get with (d := 0%nat). intros Hp.
  apply ior_bind_get with (d := 0). intros Hq. right.
  apply ok_bind_set; [exact Hq|]. intros buf' Hlb _.
  apply ok_bind_set; [exact Hi|]. intros aps' _ Hna.
  apply ok_bind_rem; [lia|].
  apply ok_bind_set; [exact Hp|]. intros apos' _ _.
  apply ok_ret. simpl. rewrite Hna.
  destruct (Nat.eqb_spec j i); [lia|reflexivity].
Qed.

Lemma allpass_step_empty i acc aps apos :
  nth i aps [] = [] -> Effect.allpass_step i (acc, aps, apos) = inl IndexOutOfBounds.
Proof.
  intros He. unfold Effect.allpass_step, get at 1.
  destruct (nth_error aps i) as [buf|] eqn:E1; [|reflexivity].
  rewrite (nth_error_nth aps i [] E1) in He. subst buf. simpl.
  unfold get at 1. destruct (nth_error apos i) as [pos|]; [|reflexivity].
  simpl. destruct pos; reflexivity.
Qed.

(** A reverb built at a sample rate where [(sample_rate * 0.0017) as usize]
    is 0 has an empty allpass line, and the first sample it processes
    panics with an index out of bounds, whatever the input and the room. *)
Theorem reverb_low_rate_panics (libm : Libm) (sr room mix x sr' : Q) :
  f32_as_usize (sr * 0.0017) = 0%nat ->
  Effect.process libm (Effect.new_reverb sr room mix) x sr' = inl IndexOutOfBounds.
Proof.
  intros H0. unfold Effect.new_reverb. cbn [Effect.process map].
  apply (ior_bind_fail _ (fun _ => True)).
  { apply ior_mfor; [|exact I]. intros i s _. apply comb_step_ior. }
  intros [[c combs] cpos] _.
  assert (Hap : forall st, nth 1 (snd (fst st)) [] = [] ->
                  mfor [0; 1]%nat Effect.allpass_step st = inl IndexOutOfBounds).
  { intros st Hst. cbn [mfor].
    apply (ior_bind_fail _ (fun '(_, aps', _) => nth 1 aps' [] = nth 1 (snd (fst st)) [])).
    - apply allpass_step_keeps_other. lia.
    - intros [[a aps] apos] Ha. unfold bind. rewrite allpass_step_empty by congruence.
      reflexivity. }
  cbn [ReverbParameters.allpass_filters ReverbParameters.allpass_positions length seq].
  unfold bind at 1, fdiv. rewrite Hap; [reflexivity|]. simpl. rewrite H0. reflexivity.
Qed.

Lemma reverb_low_rate_panics_witness :
  f32_as_usize (500 * 0.0017) = 0%nat /\
  Effect.process libm_stub (Effect.new_reverb 500 1 0.5) 1 500 = inl IndexOutOfBounds.
Proof.
  split; [reflexivity|]. apply reverb_low_rate_panics. reflexivity.
Defined.

(** A chorus with at least one voice, built at a sample rate where
    [(sample_rate * 0.030) as usize] is 0, has empty delay lines: the first
    sample it processes panics on the subtraction [buffer.len() - 1]. *)
Theorem chorus_low_rate_panics (libm : Libm) (sr : Q) (voices : nat) (mix x sr' : Q) :
  f32_as_usize (sr * 0.030) = 0%nat -> (1 <= voices)%nat ->
  Effect.process libm (Effect.new_chorus sr voices mix) x sr' = inl SubOverflow.
Proof.
  intros H0 Hv. destruct voices as [|v]; [lia|].
  unfold Effect.new_chorus. rewrite H0. reflexivity.
Qed.

Lemma chorus_low_rate_panics_witness :
  f32_as_usize (20 * 0.030) = 0%nat /\
  Effect.process libm_stub (Effect.new_chorus 20 3 0.5) 1 20 = inl SubOverflow.
Proof.
  split; [reflexivity|]. apply chorus_low_rate_panics; [reflexivity|lia].
Defined.

(** ** The delay resize of the panel *)

Lemma resize_delay_fields sr p :
  DelayParameters.delay_time (SynthApp.resize_delay sr p) = DelayParameters.delay_time p.
Proof. unfold SynthApp.resize_delay. destruct (negb _); reflexivity. Qed.



(** When [(sample_rate * delay_time) as usize] is 0 the resize never
    settles: the one-sample line it allocates has length 1, not 0, so every
    frame of the panel clears a non-empty line and rewinds it to position 0,
    the frame after included. *)
Theorem resize_delay_zero_clears sr p :
  f32_as_usize (sr * DelayParameters.delay_time p) = 0%nat ->
  (0 < length (DelayParameters.buffer p))%nat ->
  DelayParameters.buffer (SynthApp.resize_delay sr p) = [0] /\
  DelayParameters.position (SynthApp.resize_delay sr p) = 0%nat /\
  DelayParameters.buffer (SynthApp.resize_delay sr (SynthApp.resize_delay sr p)) = [0] /\
  DelayParameters.position (SynthApp.resize_delay sr (SynthApp.resize_delay sr p)) = 0%nat.
Proof.
  intros H0 Hl.
  assert (Hr : forall q, f32_as_usize (sr * DelayParameters.delay_time q) = 0%nat ->
             (0 < length (DelayParameters.buffer q))%nat ->
             DelayParameters.buffer (SynthApp.resize_delay sr q) = [0] /\
             DelayParameters.position (SynthApp.resize_delay sr q) = 0%nat).
  { intros q Hq Hlq. unfold SynthApp.resize_delay. rewrite Hq.
    destruct (length (DelayParameters.buffer q)) as [|k]; [lia|]. simpl. auto. }
  destruct (Hr p H0 Hl) as [Hb Hp]. split; [exact Hb|]. split; [exact Hp|].
  apply Hr.
  - rewrite resize_delay_fields. exact H0.
  - rewrite Hb. simpl. lia.
Qed.

Lemma resize_delay_zero_clears_witness :
  let p := {| DelayParameters.buffer := [1; 2; 3]; DelayParameters.position := 2;
              DelayParameters.delay_time := 0; DelayParameters.feedback := 0.4;
              DelayParameters.mix := 0.5 |} in
  f32_as_usize (44100 * DelayParameters.delay_time p) = 0%nat /\
  DelayParameters.buffer (SynthApp.resize_delay 44100 (SynthApp.resize_delay 44100 p)) = [0].
Proof.
  intros p. split; [reflexivity|].
  apply (resize_delay_zero_clears 44100 p); [reflexivity|simpl; lia].
Defined.

(** ** The modulation effects *)

Lemma abs_scale x k : -1 <= k <= 1 -> Qabs (x * k) <= Qabs x.
Proof.
  intros Hk. rewrite Qabs_Qmult.
  assert (Ha : Qabs k <= 1) by (apply Qabs_Qle_condition; lra).
  assert (Hx : 0 <= Qabs x) by apply Qabs_nonneg.
  assert (Hk0 : 0 <= Qabs k) by apply Qabs_nonneg. nra.
Qed.

(** The phase of a tremolo and of a ring modulator stays in [0, 1): from a
    phase that is not negative, at a rate (a frequency for the ring
    modulator) that is not negative and a positive sample rate, one
    processed sample leaves the phase in [0, 1). *)
Theorem lfo_phase_in_unit (libm : Libm) (x sr : Q) :
  0 < sr ->
  (forall p, 0 <= TremoloParameters.phase p -> 0 <= TremoloParameters.rate p ->
     ok (fun '(_, e') => match e' with
                         | Effect.Tremolo p' => 0 <= TremoloParameters.phase p' < 1
                         | _ => False end)
        (Effect.process libm (Effect.Tremolo p) x sr)) /\
  (forall p, 0 <= RingModParameters.phase p -> 0 <= RingModParameters.frequency p ->
     ok (fun '(_, e') => match e' with
                         | Effect.RingMod p' => 0 <= RingModParameters.phase p' < 1
                         | _ => False end)
        (Effect.process libm (Effect.RingMod p) x sr)).
Proof.
  intros Hsr. split; intros p Hph Hr; cbn [Effect.process]; apply ok_bind_fdiv;
    apply ok_ret; cbn; apply fmod_range; try lra;
    assert (0 <= _ / sr) by (apply div_nonneg; eassumption); lra.
Qed.

Lemma lfo_phase_in_unit_witness :
  0 < 44100 /\
  ok (fun '(_, e') => match e' with
                      | Effect.Tremolo p' => 0 <= TremoloParameters.phase p' < 1
                      | _ => False end)
     (Effect.process libm_stub
        (Effect.Tremolo {| TremoloParameters.rate := 20; TremoloParameters.depth := 0.5;
                           TremoloParameters.mix := 0.5; TremoloParameters.phase := 0.9999 |})
        1 44100).
Proof.
  assert (H : 0 < 44100) by (vm_compute; reflexivity).
  split; [exact H|]. apply (proj1 (lfo_phase_in_unit libm_stub 1 44100 H)); simpl; lra.
Defined.

(** The tremolo and the ring modulator never make a sample louder: with
    [sin] in [-1, 1], a depth in [0, 1] (tremolo) and a mix in [0, 1], the
    processed sample is at most as large in magnitude as the input. *)
Theorem tremolo_ringmod_never_louder (libm : Libm) (x sr : Q) :
  (forall y, -1 <= sin libm y <= 1) ->
  (forall p, 0 <= TremoloParameters.depth p <= 1 -> 0 <= TremoloParameters.mix p <= 1 ->
     ok (fun '(y, _) => Qabs y <= Qabs x) (Effect.process libm (Effect.Tremolo p) x sr)) /\
  (forall p, 0 <= RingModParameters.mix p <= 1 ->
     ok (fun '(y, _) => Qabs y <= Qabs x) (Effect.process libm (Effect.RingMod p) x sr)).
Proof.
  intros Hsin. split.
  - intros p Hd Hm. cbn [Effect.process]. apply ok_bind_fdiv. apply ok_ret.
    set (s := sin libm (TremoloParameters.phase p * 2 * PI)).
    assert (Hs : -1 <= s <= 1) by apply Hsin.
    set (d := TremoloParameters.depth p) in *. set (m := TremoloParameters.mix p) in *.
    assert (E : x * (1 - m) + x * ((1 + s * d) * 0.5) * m
                == x * ((1 - m) + (1 + s * d) * 0.5 * m)) by ring.
    rewrite E. apply abs_scale.
    assert (Hsd : -1 <= s * d <= 1) by (split; nra).
    set (t := (1 + s * d) * 0.5).
    assert (Ht : 0 <= t <= 1) by (unfold t; lra). split; nra.
  - intros p Hm. cbn [Effect.process]. apply ok_bind_fdiv. apply ok_ret.
    set (s := sin libm (RingModParameters.phase p * 2 * PI)).
    assert (Hs : -1 <= s <= 1) by apply Hsin.
    set (m := RingModParameters.mix p) in *.
    assert (E : x * (1 - m) + x * s * m == x * ((1 - m) + s * m)) by ring.
    rewrite E. apply abs_scale. split; nra.
Qed.

Lemma tremolo_ringmod_never_louder_witness :
  ok (fun '(y, _) => Qabs y <= Qabs (-3))
     (Effect.process libm_clamp
        (Effect.RingMod {| RingModParameters.frequency := 440; RingModParameters.phase := 0.25;
                           RingModParameters.mix := 1 |}) (-3) 44100).
Proof.
  apply (proj2 (tremolo_ringmod_never_louder libm_clamp (-3) 44100 libm_clamp_sin)).
  simpl. lra.
Defined.

(** ** The one-pole filter *)


Lemma filter_step libm cutoff res mix pin pout x sr :
  ~ sr == 0 -> 0 <= 2 * PI * cutoff / sr ->
  let n := 2 * PI * cutoff / sr in let alpha := n / (1 + n) in
  Effect.process libm (filter_state cutoff res mix pin pout) x sr =
    inr ((x * (1 - mix) + (pout + alpha * (x - pout)) * mix,
          filter_state cutoff res mix x (pout + alpha * (x - pout))), []).
Proof.
  intros Hsr Hn n alpha. unfold filter_state. cbn [Effect.process]. unfold bind, fdiv.
  assert (E1 : Qeq_bool sr 0 = false).
  { destruct (Qeq_bool sr 0) eqn:E; [apply Qeq_bool_iff in E; contradiction|reflexivity]. }
  assert (E2 : Qeq_bool (1 + 2 * PI * cutoff / sr) 0 = false).
  { destruct (Qeq_bool (1 + 2 * PI * cutoff / sr) 0) eqn:E;
      [apply Qeq_bool_iff in E; lra|reflexivity]. }
  rewrite E1. cbn [FilterParameters.cutoff FilterParameters.mix FilterParameters.prev_output].
  rewrite E2. reflexivity.
Qed.

(** The low-pass filter settles on a constant input without ever dividing by
    zero: for a positive cutoff and sample rate, [alpha] lies in (0, 1), and
    after [k] samples of a constant [c] the distance of [prev_output] to [c]
    is [(1 - alpha)^k] times the distance it started at. *)
Theorem filter_converges (libm : Libm) (cutoff res mix pin y0 c sr : Q) (k : nat) :
  0 < cutoff -> 0 < sr ->
  let n := 2 * PI * cutoff / sr in let alpha := n / (1 + n) in
  0 < alpha < 1 /\
  exists ys pin' y',
    run_effect libm (filter_state cutoff res mix pin y0) (repeat c k) sr =
      inr ((ys, filter_state cutoff res mix pin' y'), []) /\
    length ys = k /\ y' - c == (1 - alpha) ^ Z.of_nat k * (y0 - c).
Proof.
  intros Hc Hsr n alpha.
  assert (Hn : 0 < n) by (unfold n; apply div_pos; [unfold PI; nra|exact Hsr]).
  assert (Ha : 0 < alpha < 1).
  { unfold alpha. split; [apply div_pos; lra|apply Qlt_shift_div_r; lra]. }
  split; [exact Ha|].
  assert (Hsr0 : ~ sr == 0) by lra.
  revert pin y0. induction k as [|k IH]; intros pin y0.
  - exists [], pin, y0. split; [reflexivity|]. split; [reflexivity|]. simpl. ring.
  - cbn [repeat run_effect].
    rewrite filter_step; [|exact Hsr0|apply Qlt_le_weak; exact Hn]. fold n alpha.
    destruct (IH c (y0 + alpha * (c - y0))) as (ys & pin' & y' & E & Hl & Hy).
    exists ((c * (1 - mix) + (y0 + alpha * (c - y0)) * mix) :: ys), pin', y'.
    unfold bind at 1. rewrite E. split; [reflexivity|]. split; [simpl; lia|].
    rewrite Hy, Znat.Nat2Z.inj_succ, <- Z.add_1_r, Qpower_plus by lra. simpl. ring.
Qed.

Lemma filter_converges_witness :
  0 < 1000 /\ 0 < 44100 /\
  exists ys pin' y',
    run_effect libm_stub (filter_state 1000 0.7 1 0 0) (repeat 1 3) 44100 =
      inr ((ys, filter_state 1000 0.7 1 pin' y'), []) /\ length ys = 3%nat /\
    y' - 1 == (1 - (2 * PI * 1000 / 44100) / (1 + 2 * PI * 1000 / 44100)) ^ 3 * (0 - 1).
Proof.
  assert (H1 : 0 < 1000) by reflexivity. assert (H2 : 0 < 44100) by reflexivity.
  split; [exact H1|]. split; [exact H2|].
  exact (proj2 (filter_converges libm_stub 1000 0.7 1 0 0 1 44100 3 H1 H2)).
Defined.

(** ** The effect stack *)

Lemma process_effects_app libm (a b : list Effect.t) x sr :
  EffectStack.process_effects libm (a ++ b) x sr =
    '(y, a') <- EffectStack.process_effects libm a x sr ;;
    '(z, b') <- EffectStack.process_effects libm b y sr ;;
    ret (z, a' ++ b').
Proof.
  revert x. induction a as [|e a IH]; intros x; simpl.
  - destruct (EffectStack.process_effects libm b x sr) as [p|[[z b'] l]]; simpl;
      [reflexivity|]. rewrite !app_nil_r. reflexivity.
  - destruct (Effect.process libm e x sr) as [p|[[y e'] l1]]; simpl; [reflexivity|].
    rewrite IH.
    destruct (EffectStack.process_effects libm a y sr) as [p|[[y2 a'] l2]]; simpl;
      [reflexivity|].
    destruct (EffectStack.process_effects libm b y2 sr) as [p|[[z b'] l3]]; simpl;
      [reflexivity|].
    rewrite !app_nil_r, app_assoc. reflexivity.
Qed.

(** [add_effect] puts the new effect last in the chain: processing a sample
    through the extended stack is processing it through the old stack and
    feeding the result to the new effect, with the same panics and the same
    division-by-zero log. *)
Theorem add_effect_process (libm : Libm) (fx : EffectStack.t) (e : Effect.t) (x sr : Q) :
  EffectStack.process libm (EffectStack.add_effect fx e) x sr =
    '(y, fx') <- EffectStack.process libm fx x sr ;;
    '(z, e') <- Effect.process libm e y sr ;;
    ret (z, EffectStack.add_effect fx' e').
Proof.
  unfold EffectStack.process, EffectStack.add_effect. simpl.
  rewrite process_effects_app.
  destruct (EffectStack.process_effects libm (EffectStack.effects fx) x sr)
    as [p|[[y a'] l1]]; simpl; [reflexivity|].
  destruct (Effect.process libm e y sr) as [p|[[z e'] l2]]; simpl; [reflexivity|].
  rewrite !app_nil_r. reflexivity.
Qed.

Lemma new_delay_wf sr dt fb mix : effect_wf (Effect.new_delay sr dt fb mix).
Proof. unfold Effect.new_delay. simpl. rewrite repeat_length. lia. Qed.

Lemma rings_ok_reset bufs poss :
  rings_ok bufs poss -> rings_ok (map Effect.zeros bufs) (map (fun _ => 0%nat) poss).
Proof.
  intros [Hl Hr]. split; [rewrite !length_map; exact Hl|].
  intros i Hi. rewrite length_map in Hi.
  rewrite (map_nth (fun _ => 0%nat) poss 0%nat i).
  change [] with (Effect.zeros []). rewrite map_nth, zeros_length.
  specialize (Hr i Hi). lia.
Qed.

(** [EffectStack::reset] keeps a well-formed stack well-formed: the delay
    lines keep their lengths and every cursor goes back to 0, so a stack
    that could be processed without a panic still can after a reset. *)
Theorem reset_keeps_wf (fx : EffectStack.t) :
  stack_wf fx -> stack_wf (EffectStack.reset fx).
Proof.
  unfold stack_wf, EffectStack.reset. simpl. intros H. apply Forall_map.
  eapply Forall_impl; [|exact H]. intros [p|d m|p|p|p|p|p]; simpl; auto.
  - rewrite zeros_length. lia.
  - intros (Hr & Hra & Hd & Hph & Hdep). rewrite length_map in *.
    split; [apply rings_ok_reset; exact Hr|].
    split; [exact Hra|]. split; [exact Hd|]. split; [rewrite zeros_length; exact Hph|].
    exact Hdep.
  - intros [Hc Ha]. split; apply rings_ok_reset; assumption.
Qed.

Lemma reset_keeps_wf_witness :
  let fx := EffectStack.add_effect (EffectStack.add_effect EffectStack.new
              (Effect.new_delay 44100 0.3 0.4 0.5)) (Effect.new_reverb 44100 1 0.5) in
  stack_wf fx /\ stack_wf (EffectStack.reset fx).
Proof.
  intros fx.
  assert (H : stack_wf fx).
  { unfold fx, stack_wf, EffectStack.add_effect.
    cbn [EffectStack.effects EffectStack.new app].
    constructor; [apply new_delay_wf|].
    constructor; [|constructor]. apply new_reverb_wf; vm_compute; discriminate. }
  split; [exact H|]. apply reset_keeps_wf. exact H.
Defined.

(** ** Which voices [get_next_sample] keeps *)

Lemma map_fst_Forall2 {V} (R : V -> V -> Prop) (l1 l2 : list (note * V)) :
  Forall2 (fun a b => fst a = fst b /\ R (snd a) (snd b)) l1 l2 -> map fst l1 = map fst l2.
Proof. induction 1 as [|a b l1 l2 [H _] _ IH]; simpl; congruence. Qed.

Lemma get_next_sample_keys libm s now rng out s' l :
  Synth.get_next_sample libm s now rng = inr ((out, s'), l) ->
  exists r, Synth.retain (Synth.voices s) now = inr r /\ map fst (Synth.voices s') = map fst r.
Proof.
  unfold Synth.get_next_sample.
  destruct (Synth.retain (Synth.voices s) now) as [p|vs] eqn:Er; [discriminate|].
  intros H. apply bind_inr in H as ([r vs1] & l1 & l2 & Hmix & H & _).
  apply bind_inr in H as ([o fx] & l3 & l4 & _ & H & _).
  inversion H; subst. simpl. exists vs. split; [reflexivity|].
  destruct vs as [|kv vs0].
  - inversion Hmix; subst. reflexivity.
  - apply bind_inr in Hmix as ([sum vs2] & l5 & l6 & Hs & Hmix & _).
    apply bind_inr in Hmix as (r' & l7 & l8 & _ & Hmix & _).
    inversion Hmix; subst.
    apply sample_voices_envelopes in Hs.
    symmetry. eapply (map_fst_Forall2 (fun a b => Voice.envelope b = Voice.envelope a /\
                        Voice.frequency_envelope b = Voice.frequency_envelope a)).
    exact Hs.
Qed.

Lemma retain_keys vs now r :
  Synth.retain vs now = inr r ->
  forall n, In n (map fst r) <->
    exists v, In (n, v) vs /\
      (Envelope.is_released (Voice.envelope v) = false \/
       exists rt, Envelope.release_time (Voice.envelope v) = Some rt /\
                  elapsed rt now < Envelope.release (Voice.envelope v)).
Proof.
  revert r. induction vs as [|[k v] vs IH]; simpl; intros r H n.
  - inversion H; subst. simpl. split; [intros []|intros (v & [] & _)].
  - destruct (Synth.keep_voice v now) as [p|b] eqn:Ek; [discriminate|].
    destruct (Synth.retain vs now) as [p|r'] eqn:E; [discriminate|].
    inversion H; subst. specialize (IH r' eq_refl n).
    assert (Hb : b = true <->
                 (Envelope.is_released (Voice.envelope v) = false \/
                  exists rt, Envelope.release_time (Voice.envelope v) = Some rt /\
                             elapsed rt now < Envelope.release (Voice.envelope v))).
    { unfold Synth.keep_voice in Ek.
      destruct (Envelope.is_released (Voice.envelope v)); simpl in Ek.
      - destruct (Envelope.release_time (Voice.envelope v)) as [rt|]; [|discriminate].
        inversion Ek; subst. rewrite qlt_true. split.
        + intros Hl. right. exists rt. auto.
        + intros [Hf|(rt' & Hrt & Hl)]; [discriminate|]. inversion Hrt; subst. exact Hl.
      - inversion Ek; subst. split; auto. }
    destruct b; simpl; rewrite IH; split.
    + intros [<-|(v' & Hin & Hk)]; [exists v; split; [left; reflexivity|apply Hb; reflexivity]|].
      exists v'. auto.
    + intros (v' & [Heq|Hin] & Hk); [inversion Heq; subst; left; reflexivity|].
      right. exists v'. auto.
    + intros (v' & Hin & Hk). exists v'. auto.
    + intros (v' & [Heq|Hin] & Hk); [|exists v'; auto].
      inversion Heq; subst. apply Hb in Hk. discriminate.
Qed.

(** Which notes survive a sample: after [get_next_sample] at [now], a note
    has a voice exactly when it had one before that is either held, or
    released less than [release] seconds ago. A held note is never dropped,
    a released one is dropped on the first sample its release has run out. *)
Theorem get_next_sample_prunes (libm : Libm) (s : Synth.t) (now : Q) (rng : nat -> Q)
    (out : Q) (s' : Synth.t) (l : list div_site) :
  Synth.get_next_sample libm s now rng = inr ((out, s'), l) ->
  forall n, In n (map fst (Synth.voices s')) <->
    exists v, In (n, v) (Synth.voices s) /\
      (Envelope.is_released (Voice.envelope v) = false \/
       exists rt, Envelope.release_time (Voice.envelope v) = Some rt /\
                  elapsed rt now < Envelope.release (Voice.envelope v)).
Proof.
  intros H n. destruct (get_next_sample_keys _ _ _ _ _ _ _ H) as (r & Er & Hk).
  rewrite Hk. apply retain_keys. exact Er.
Qed.

Lemma get_next_sample_prunes_witness :
  let s := Synth.note_off (Synth.note_on libm_stub (Synth.new 44100) 60%N 0) 60%N 1 in
  exists out s' l, Synth.get_next_sample libm_stub s 2 (fun _ => 0) = inr ((out, s'), l) /\
                   ~ In 60%N (map fst (Synth.voices s')).
Proof.
  intros s.
  destruct (Synth.get_next_sample libm_stub s 2 (fun _ => 0)) as [p|[[o s'] l]] eqn:E.
  - vm_compute in E. discriminate E.
  - exists o, s', l. split; [reflexivity|].
    rewrite (get_next_sample_prunes libm_stub s 2 (fun _ => 0) o s' l E 60%N).
    intros (v & Hin & Hk). vm_compute in Hin.
    destruct Hin as [Hv|[]]. inversion Hv; subst v.
    destruct Hk as [Hr|(rt & Hrt & Hl)]; [discriminate Hr|].
    inversion Hrt; subst rt. vm_compute in Hl. discriminate Hl.
Defined.

(** ** Amplitude and voice output bounds *)

Lemma amplitude_unit e now :
  0 < Envelope.attack e -> 0 < Envelope.decay e -> 0 < Envelope.release e ->
  0 <= Envelope.sustain e <= 1 ->
  0 <= Envelope.get_amplitude e now <= 1.
Proof.
  intros Ha Hd Hr Hs. unfold Envelope.get_amplitude.
  destruct (Envelope.start_time e) as [st|]; [|lra].
  pose proof (elapsed_nonneg st now) as Hel.
  set (el := elapsed st now) in *.
  assert (Hnot : 0 <= (if qlt el (Envelope.attack e) then el / Envelope.attack e
            else if qlt el (Envelope.attack e + Envelope.decay e) then
              1 - (1 - Envelope.sustain e) * (el - Envelope.attack e) / Envelope.decay e
            else Envelope.sustain e) <= 1).
  { destruct (qlt el (Envelope.attack e)) eqn:E1.
    - apply qlt_true in E1. pose proof (div_unit_interval el _ Hel E1). lra.
    - apply qlt_false in E1.
      destruct (qlt el (Envelope.attack e + Envelope.decay e)) eqn:E2; [|exact Hs].
      apply qlt_true in E2.
      pose proof (div_unit_interval (el - Envelope.attack e) (Envelope.decay e)
                    ltac:(lra) ltac:(lra)) as Hq.
      assert (Eq : (1 - Envelope.sustain e) * (el - Envelope.attack e) / Envelope.decay e
                   == (1 - Envelope.sustain e) * ((el - Envelope.attack e) / Envelope.decay e))
        by (unfold Qdiv; ring).
      rewrite Eq. split; nra. }
  destruct (Envelope.is_released e); [|exact Hnot].
  destruct (Envelope.release_time e) as [rt|]; [|exact Hnot].
  pose proof (elapsed_nonneg rt now) as Hre.
  destruct (qle (Envelope.release e) (elapsed rt now)) eqn:E3; [lra|].
  apply qle_false in E3.
  pose proof (div_unit_interval _ _ Hre E3). split; nra.
Qed.

(** A voice that is not additive never leaves [-1, 1]: with [sin] in
    [-1, 1], a phase that is not negative, a noise draw in [0, 1], positive
    attack, decay and release times and a sustain level in [0, 1], every
    sample [get_sample] returns lies in [-1, 1]. *)
Theorem voice_sample_bounded (libm : Libm) (v : Voice.t) (sr now rnd : Q) :
  (forall y, -1 <= sin libm y <= 1) ->
  (forall n ws, Voice.waveform v <> Additive n ws) ->
  0 <= Voice.phase v -> 0 <= rnd <= 1 ->
  0 < Envelope.attack (Voice.envelope v) -> 0 < Envelope.decay (Voice.envelope v) ->
  0 < Envelope.release (Voice.envelope v) ->
  0 <= Envelope.sustain (Voice.envelope v) <= 1 ->
  ok (fun '(x, _) => -1 <= x <= 1) (Voice.get_sample libm v sr now rnd).
Proof.
  intros Hsin Hadd Hph Hrnd Ha Hd Hr Hs.
  pose proof (amplitude_unit (Voice.envelope v) now Ha Hd Hr Hs) as Hamp.
  set (amp := Envelope.get_amplitude (Voice.envelope v) now) in *.
  assert (HPI : 0 < 2 * PI) by (unfold PI; lra).
  pose proof (fmod_range (Voice.phase v) (2 * PI) Hph HPI) as Hf.
  pose proof (div_unit_interval _ _ (proj1 Hf) (proj2 Hf)) as Hn.
  unfold Voice.get_sample. apply ok_bind_fdiv.
  apply (ok_bind (fun '(x, _) => -1 <= x <= 1)).
  - destruct (Voice.waveform v) as [| | | | |n ws] eqn:Ew;
      [apply ok_ret..|exfalso; exact (Hadd n ws eq_refl)].
    + apply Hsin.
    + destruct (qle 0 _); lra.
    + lra.
    + destruct (qlt _ 0.5) eqn:Et; [apply qlt_true in Et|apply qlt_false in Et]; lra.
    + lra.
  - intros [x hps] Hx. apply ok_ret. fold amp. split; nra.
Qed.

Lemma voice_sample_bounded_witness :
  let v := Synth.fresh_voice libm_clamp (Synth.new 44100) 69%N 0 in
  ok (fun '(x, _) => -1 <= x <= 1) (Voice.get_sample libm_clamp v 44100 0.05 0.5).
Proof.
  intros v. apply voice_sample_bounded.
  - exact libm_clamp_sin.
  - intros n ws. vm_compute. discriminate.
  - vm_compute. discriminate.
  - split; vm_compute; discriminate.
  - reflexivity.
  - reflexivity.
  - reflexivity.
  - split; vm_compute; discriminate.
Defined.

(** ** A second [note_off] *)

Lemma note_off_get s n v now :
  hm_get (Synth.voices s) n = Some v ->
  hm_get (Synth.voices (Synth.note_off s n now)) n = Some (Synth.release_voice v now).
Proof.
  intros H. unfold Synth.note_off. rewrite H. simpl. apply hm_insert_get.
Qed.

(** [note_off] stamps the release time even on a voice that is already
    released, so a second [note_off] of a sounding note restarts its fade:
    at the instant [t2] of the second call, inside the fade begun at [t1],
    the amplitude goes back up from below [sustain] to [sustain]. *)
Theorem note_off_restarts_release (s : Synth.t) (n : note) (v : Voice.t) (st t1 t2 : Q) :
  hm_get (Synth.voices s) n = Some v ->
  Envelope.start_time (Voice.envelope v) = Some st ->
  0 < Envelope.release (Voice.envelope v) -> 0 < Envelope.sustain (Voice.envelope v) ->
  t1 < t2 < t1 + Envelope.release (Voice.envelope v) ->
  exists v1 v2,
    hm_get (Synth.voices (Synth.note_off s n t1)) n = Some v1 /\
    hm_get (Synth.voices (Synth.note_off (Synth.note_off s n t1) n t2)) n = Some v2 /\
    Envelope.get_amplitude (Voice.envelope v1) t2 < Envelope.sustain (Voice.envelope v) /\
    Envelope.get_amplitude (Voice.envelope v2) t2 == Envelope.sustain (Voice.envelope v).
Proof.
  intros Hv Hst Hr Hs [H1 H2].
  pose proof (note_off_get s n v t1 Hv) as Hv1.
  pose proof (note_off_get _ n _ t2 Hv1) as Hv2.
  exists (Synth.release_voice v t1), (Synth.release_voice (Synth.release_voice v t1) t2).
  split; [exact Hv1|]. split; [exact Hv2|].
  unfold Envelope.get_amplitude; simpl; rewrite Hst.
  assert (E1 : elapsed t1 t2 = t2 - t1).
  { unfold elapsed. destruct (qlt t1 t2) eqn:E; [reflexivity|apply qlt_false in E; lra]. }
  assert (E2 : elapsed t2 t2 = 0).
  { unfold elapsed. destruct (qlt t2 t2) eqn:E; [apply qlt_true in E; lra|reflexivity]. }
  rewrite E1, E2.
  destruct (qle (Envelope.release (Voice.envelope v)) (t2 - t1)) eqn:E3;
    [apply qle_true in E3; lra|].
  destruct (qle (Envelope.release (Voice.envelope v)) 0) eqn:E4;
    [apply qle_true in E4; lra|].
  split.
  - assert (0 < (t2 - t1) / Envelope.release (Voice.envelope v)) by (apply div_pos; lra).
    nra.
  - unfold Qdiv. rewrite Qmult_0_l. ring.
Qed.

Lemma note_off_restarts_release_witness :
  let s := Synth.note_on libm_stub (Synth.new 44100) 5%N 0 in
  exists v1 v2,
    hm_get (Synth.voices (Synth.note_off s 5%N 1)) 5%N = Some v1 /\
    hm_get (Synth.voices (Synth.note_off (Synth.note_off s 5%N 1) 5%N 1.1)) 5%N = Some v2 /\
    Envelope.get_amplitude (Voice.envelope v1) 1.1 < 0.7 /\
    Envelope.get_amplitude (Voice.envelope v2) 1.1 == 0.7.
Proof.
  intros s.
  exact (note_off_restarts_release s 5%N (Synth.fresh_voice libm_stub (Synth.new 44100) 5%N 0)
           0 1 1.1 eq_refl eq_refl eq_refl eq_refl (conj eq_refl eq_refl)).
Defined.

(** ** Buffers of the audio callback *)

(** The samples do not depend on how the stream is cut into buffers: filling
    the slots [d1 ++ d2] in one callback gives the same samples, the same
    final synth, the same panic and the same log as filling [d1] and then,
    from the synth it leaves, [d2] in a second callback. *)
Theorem fill_app (libm : Libm) (s : Synth.t) (d1 d2 : list (Q * (nat -> Q))) :
  SynthApp.fill libm s (d1 ++ d2) =
    '(xs, s1) <- SynthApp.fill libm s d1 ;;
    '(ys, s2) <- SynthApp.fill libm s1 d2 ;;
    ret (xs ++ ys, s2).
Proof.
  revert s. induction d1 as [|[now rng] d1 IH]; intros s; simpl.
  - destruct (SynthApp.fill libm s d2) as [p|[[ys s2] l]]; simpl; [reflexivity|].
    rewrite !app_nil_r. reflexivity.
  - destruct (Synth.get_next_sample libm s now rng) as [p|[[x s1] l1]]; simpl; [reflexivity|].
    rewrite IH.
    destruct (SynthApp.fill libm s1 d1) as [p|[[xs s2] l2]]; simpl; [reflexivity|].
    destruct (SynthApp.fill libm s2 d2) as [p|[[ys s3] l3]]; simpl; [reflexivity|].
    rewrite !app_nil_r, app_assoc. reflexivity.
Qed.

(** ** Note numbers *)

Lemma Qfloor_plus_1 x : Qfloor (x + 1) = (Qfloor x + 1)%Z.
Proof.
  destruct x as [a b]. unfold Qplus, Qfloor. cbn [Qnum Qden].
  rewrite Pos.mul_1_r, Z.mul_1_r, Z.mul_1_l.
  rewrite <- (Z.mul_1_l (Z.pos b)) at 1. rewrite Z.div_add by lia. reflexivity.
Qed.

(** Note numbers count semitones up from A4: with a [powf] that respects
    equality of values, gives [2^0 = 1] and [2^(x + 1) = 2 * 2^x], a voice
    started for note 0 sounds at 440 Hz and the voice of note [n + 12]
    sounds at twice the frequency of the voice of note [n]. *)
Theorem note_frequency_octave (libm : Libm) (s : Synth.t) :
  (forall x y, x == y -> powf libm 2 x == powf libm 2 y) ->
  powf libm 2 0 == 1 ->
  (forall x, powf libm 2 (x + 1) == 2 * powf libm 2 x) ->
  (forall now, Voice.frequency (Synth.fresh_voice libm s 0%N now) == 440) /\
  (forall n now now',
     Voice.frequency (Synth.fresh_voice libm s (n + 12)%N now')
       == 2 * Voice.frequency (Synth.fresh_voice libm s n now)).
Proof.
  intros Hp H0 H1. split.
  - intros now. simpl. rewrite (Hp _ 0) by reflexivity. rewrite H0. reflexivity.
  - intros n now now'. simpl.
    rewrite (Hp _ (inject_Z (Z.of_N n) / 12 + 1)).
    + rewrite H1. ring.
    + rewrite Znat.N2Z.inj_add, inject_Z_plus. field.
Qed.

Lemma note_frequency_octave_witness :
  Voice.frequency (Synth.fresh_voice libm_floor_pow (Synth.new 44100) 24%N 0)
    == 2 * Voice.frequency (Synth.fresh_voice libm_floor_pow (Synth.new 44100) 12%N 0).
Proof.
  assert (Hp : forall x y, x == y -> powf libm_floor_pow 2 x == powf libm_floor_pow 2 y).
  { intros x y Hxy. simpl. rewrite Hxy. reflexivity. }
  assert (H0 : powf libm_floor_pow 2 0 == 1) by reflexivity.
  assert (H1 : forall x, powf libm_floor_pow 2 (x + 1) == 2 * powf libm_floor_pow 2 x).
  { intros x. unfold libm_floor_pow. cbn [powf].
    rewrite Qfloor_plus_1, Qpower_plus by discriminate. simpl. ring. }
  exact (proj2 (note_frequency_octave libm_floor_pow (Synth.new 44100) Hp H0 H1) 12%N 0 0).
Defined.
